(** * magic2048: the grid engine of the 2048 game

    A shallow embedding of [utils/gameLogic.ts], of the turn controller of
    [hooks/useGameLogic.ts], of the touch handlers of
    [hooks/useInputHandlers.ts] and of the style helpers of the grid
    component, with the properties of the specification and further
    properties of the code proved about it.

    Modelling choices.
    - A [Cell] is [number | null]: [None] is [null] and [Some v] a tile; tile
      values are integers ([Z]), so [NaN], infinities and the negative zero of
      JavaScript numbers are outside the model.
    - A [Grid] is [Cell[][]]: a list of rows.  Reading [a[i]] is the list
      lookup [a !! i]; on a row, [None] is the [undefined] JavaScript yields
      out of range, which is a value distinct from [null].
    - A function returns [None] where the source throws a [TypeError] (a
      property read on [undefined]) or would put [undefined] into a [Cell[]].
    - [Math.random ()] is a rational of the half-open interval from 0 to 1,
      handed to the function that draws it; the rounding of the product
      [Math.random () * length] in floating point is not modelled. *)

From Stdlib Require Import ZArith QArith Qround Qabs Lia Lqa Sorted.
From stdpp Require Import base tactics option numbers list strings.

(** ** Configuration: [config/gameConfig.ts] *)

Module GRID_CONFIG.
Definition SIZE : nat := 4.
Definition WINNING_TILE : Z := 2048.
Definition INITIAL_TILES : nat := 2.
End GRID_CONFIG.

Module TILE_CONFIG.
Definition PROBABILITY_OF_2 : Q := 9 # 10.
End TILE_CONFIG.

Module INPUT_CONFIG.
Definition SWIPE_THRESHOLD : Q := 50.
Definition KEYBOARD_ENABLED : bool := true.
Definition TOUCH_ENABLED : bool := true.
End INPUT_CONFIG.

(** ** Types: [types/game.ts] *)

Abbreviation Cell := (option Z).
Abbreviation Grid := (list (list Cell)).

Inductive Direction := Up | Down | Left | Right.

Record GameState := mkGameState {
  grid : Grid;
  score : Z;
  gameOver : bool;
  won : bool
}.

(** ** Control structures *)

(** [for (let i = ...; ...; i++) body]: the loop runs the body at each index
    of [idx], threading the variables it assigns; a throwing body ends it. *)
Fixpoint for_each {S : Type} (idx : list nat) (body : nat → S → option S) (s : S)
  : option S :=
  match idx with
  | [] => Some s
  | i :: idx' => s' ← body i s; for_each idx' body s'
  end.

(** A loop whose body may [return] from the enclosing function: the body
    yields [Some r] to return [r] and [None] to go on. *)
Fixpoint for_return {R : Type} (idx : list nat) (body : nat → option (option R))
  : option (option R) :=
  match idx with
  | [] => Some None
  | i :: idx' =>
      r ← body i;
      match r with
      | Some v => Some (Some v)
      | None => for_return idx' body
      end
  end.

(** [x === null] on the result of an array read. *)
Definition is_null (x : option Cell) : bool :=
  match x with
  | Some None => true
  | _ => false
  end.

(** [x === y] on the results of two array reads. *)
Definition strict_eq (x y : option Cell) : bool := bool_decide (x = y).

(** [grid[row][col]] where a [Cell] is expected. *)
Definition cellAt (grid : Grid) (row col : nat) : option Cell :=
  rw ← grid !! row; rw !! col.

(** ** [utils/gameLogic.ts] *)

Import GRID_CONFIG.

Definition createEmptyGrid : Grid := replicate SIZE (replicate SIZE None).

Definition getEmptyCells (grid : Grid) : option (list (nat * nat)) :=
  for_each (seq 0 SIZE) (λ row emptyCells,
    for_each (seq 0 SIZE) (λ col emptyCells,
      rw ← grid !! row;
      Some (if is_null (rw !! col) then emptyCells ++ [(row, col)] else emptyCells))
    emptyCells) [].

(** [emptyCells[randomIndex]] for the integer [randomIndex]. *)
Definition lookupZ {A : Type} (l : list A) (i : Z) : option A :=
  if (i <? 0)%Z then None else l !! Z.to_nat i.

(** [uPos] is the draw for the position, [uVal] the draw for the value.  The
    chosen position was read as [null], so it lies inside the row and the
    assignment never extends it. *)
Definition addRandomTile (grid : Grid) (uPos uVal : Q) : option Grid :=
  let newGrid := grid in
  emptyCells ← getEmptyCells newGrid;
  if (length emptyCells =? 0)%nat then Some newGrid
  else
    let randomIndex := Qfloor (uPos * inject_Z (Z.of_nat (length emptyCells))) in
    '(randomRow, randomCol) ← lookupZ emptyCells randomIndex;
    let newTileValue : Z :=
      if Qlt_le_dec uVal TILE_CONFIG.PROBABILITY_OF_2 then 2%Z else 4%Z in
    rw ← newGrid !! randomRow;
    Some (<[randomRow := <[randomCol := Some newTileValue]> rw]> newGrid).

Module Line.
Record result := mk {
  newLine : list Cell;
  changed : bool;
  scoreGained : Z
}.
End Line.

(** The merging [while] loop of [processLine]: [rest] is the part of
    [filteredLine] from index [i] on, [mergedLine] and [scoreGained] are the
    loop's variables. *)
Fixpoint mergeLoop (rest : list Z) (mergedLine : list Cell) (scoreGained : Z)
  : list Cell * Z :=
  match rest with
  | [] => (mergedLine, scoreGained)
  | x :: tl =>
      match tl with
      | y :: tl' =>
          if (x =? y)%Z then
            let mergedValue := (x * 2)%Z in
            mergeLoop tl' (mergedLine ++ [Some mergedValue]) (scoreGained + mergedValue)%Z
          else mergeLoop tl (mergedLine ++ [Some x]) scoreGained
      | [] => mergeLoop tl (mergedLine ++ [Some x]) scoreGained
      end
  end.

(** [while (mergedLine.length < SIZE) mergedLine.push(null)]. *)
Definition padLine (mergedLine : list Cell) : list Cell :=
  mergedLine ++ replicate (SIZE - length mergedLine) None.

(** [JSON.stringify] is injective on arrays of integers and [null], so the
    comparison of the two strings is the comparison of the two lines. *)
Definition processLine (line : list Cell) : Line.result :=
  let originalLine := line in
  let filteredLine : list Z := omap id line in
  let '(mergedLine, scoreGained) := mergeLoop filteredLine [] 0%Z in
  let mergedLine := padLine mergedLine in
  let changed := negb (bool_decide (originalLine = mergedLine)) in
  Line.mk mergedLine changed scoreGained.

Module Move.
Record result := mk {
  newGrid : Grid;
  moved : bool;
  scoreGained : Z
}.
End Move.

(** [[newGrid[0][col], newGrid[1][col], newGrid[2][col], newGrid[3][col]]]. *)
Definition readColumn (newGrid : Grid) (col : nat) : option (list Cell) :=
  c0 ← cellAt newGrid 0 col;
  c1 ← cellAt newGrid 1 col;
  c2 ← cellAt newGrid 2 col;
  c3 ← cellAt newGrid 3 col;
  Some [c0; c1; c2; c3].

(** [for (row ...) newGrid[row][col] = line[row]]. *)
Definition writeColumn (newGrid : Grid) (col : nat) (line : list Cell) : option Grid :=
  for_each (seq 0 SIZE) (λ row newGrid,
    v ← line !! row;
    rw ← newGrid !! row;
    Some (<[row := <[col := v]> rw]> newGrid)) newGrid.

(** The variables of [moveGrid]: [newGrid], [totalMoved], [totalScoreGained]. *)
Definition moveGrid (grid : Grid) (direction : Direction) : option Move.result :=
  let start : Grid * bool * Z := (grid, false, 0%Z) in
  st ← match direction with
       | Left =>
           for_each (seq 0 SIZE) (λ row '(newGrid, totalMoved, totalScoreGained),
             line ← newGrid !! row;
             let r := processLine line in
             if Line.changed r then
               Some (<[row := Line.newLine r]> newGrid, true,
                     (totalScoreGained + Line.scoreGained r)%Z)
             else Some (newGrid, totalMoved, totalScoreGained)) start
       | Right =>
           for_each (seq 0 SIZE) (λ row '(newGrid, totalMoved, totalScoreGained),
             line ← newGrid !! row;
             let reversedRow := reverse line in
             let r := processLine reversedRow in
             if Line.changed r then
               Some (<[row := reverse (Line.newLine r)]> newGrid, true,
                     (totalScoreGained + Line.scoreGained r)%Z)
             else Some (newGrid, totalMoved, totalScoreGained)) start
       | Up =>
           for_each (seq 0 SIZE) (λ col '(newGrid, totalMoved, totalScoreGained),
             column ← readColumn newGrid col;
             let r := processLine column in
             if Line.changed r then
               newGrid ← writeColumn newGrid col (Line.newLine r);
               Some (newGrid, true, (totalScoreGained + Line.scoreGained r)%Z)
             else Some (newGrid, totalMoved, totalScoreGained)) start
       | Down =>
           for_each (seq 0 SIZE) (λ col '(newGrid, totalMoved, totalScoreGained),
             column ← reverse <$> readColumn newGrid col;
             let r := processLine column in
             if Line.changed r then
               let reversedLine := reverse (Line.newLine r) in
               newGrid ← writeColumn newGrid col reversedLine;
               Some (newGrid, true, (totalScoreGained + Line.scoreGained r)%Z)
             else Some (newGrid, totalMoved, totalScoreGained)) start
       end;
  let '(newGrid, totalMoved, totalScoreGained) := st in
  Some (Move.mk newGrid totalMoved totalScoreGained).

Definition isGameOver (grid : Grid) : option bool :=
  r ← for_return (seq 0 SIZE) (λ row,
         for_return (seq 0 SIZE) (λ col,
           rw ← grid !! row;
           Some (if is_null (rw !! col) then Some false else None)));
  match r with
  | Some b => Some b
  | None =>
  r ← for_return (seq 0 SIZE) (λ row,
         for_return (seq 0 (SIZE - 1)) (λ col,
           rw ← grid !! row;
           Some (if strict_eq (rw !! col) (rw !! (col + 1)) then Some false else None)));
  match r with
  | Some b => Some b
  | None =>
  r ← for_return (seq 0 (SIZE - 1)) (λ row,
         for_return (seq 0 SIZE) (λ col,
           rw ← grid !! row;
           rw' ← grid !! (row + 1);
           Some (if strict_eq (rw !! col) (rw' !! col) then Some false else None)));
  match r with
  | Some b => Some b
  | None => Some true
  end end end.

Definition hasWon (grid : Grid) : option bool :=
  r ← for_return (seq 0 SIZE) (λ row,
         for_return (seq 0 SIZE) (λ col,
           rw ← grid !! row;
           Some (if strict_eq (rw !! col) (Some (Some WINNING_TILE))
                 then Some true else None)));
  match r with
  | Some b => Some b
  | None => Some false
  end.

(** [draws i] holds the two draws of the [i]-th call of [addRandomTile]. *)
Definition initializeGame (draws : nat → Q * Q) : option GameState :=
  grid ← for_each (seq 0 INITIAL_TILES) (λ i grid,
            addRandomTile grid (draws i).1 (draws i).2) createEmptyGrid;
  Some (mkGameState grid 0 false false).

(** ** The turn controller: [hooks/useGameLogic.ts]

    The hook keeps one [GameState]; [move] and [reset] either leave it as it
    is or replace it through [setGameState].  Both are functions from the
    current state to the next one. *)

Definition move (gameState : GameState) (direction : Direction) (uPos uVal : Q)
  : option GameState :=
  if gameOver gameState then Some gameState
  else
    r ← moveGrid (grid gameState) direction;
    if negb (Move.moved r) then Some gameState
    else
      gridWithNewTile ← addRandomTile (Move.newGrid r) uPos uVal;
      let newScore := (score gameState + Move.scoreGained r)%Z in
      gameOver' ← isGameOver gridWithNewTile;
      won' ← (if won gameState then Some true else hasWon gridWithNewTile);
      Some (mkGameState gridWithNewTile newScore gameOver' won').

Definition reset (gameState : GameState) (draws : nat → Q * Q) : option GameState :=
  initializeGame draws.

(** ** The touch input: [hooks/useInputHandlers.ts]

    The hook keeps the two positions [touchStart] and [touchEnd]; a handler
    sees the state left by the handlers before it.  Positions are rationals.
    [handleTouchEnd] returns, beside the next state, the direction it passes
    to [onMove] when it calls it. *)

Record TouchState := mkTouchState {
  touchStart : option (Q * Q);
  touchEnd : option (Q * Q)
}.

Definition handleTouchStart (st : TouchState) (touchX touchY : Q) : TouchState :=
  if negb INPUT_CONFIG.TOUCH_ENABLED then st
  else mkTouchState (Some (touchX, touchY)) (touchEnd st).

Definition handleTouchMove (st : TouchState) (touchX touchY : Q) : TouchState :=
  if negb INPUT_CONFIG.TOUCH_ENABLED then st
  else mkTouchState (touchStart st) (Some (touchX, touchY)).

(** The branches of [handleTouchEnd] on the two distances. *)
Definition swipeDirection (start stop : Q * Q) : option Direction :=
  let deltaX := (stop.1 - start.1)%Q in
  let deltaY := (stop.2 - start.2)%Q in
  if Qlt_le_dec (Qabs deltaY) (Qabs deltaX) then
    if Qlt_le_dec INPUT_CONFIG.SWIPE_THRESHOLD deltaX then Some Right
    else if Qlt_le_dec deltaX (- INPUT_CONFIG.SWIPE_THRESHOLD) then Some Left
    else None
  else
    if Qlt_le_dec INPUT_CONFIG.SWIPE_THRESHOLD deltaY then Some Down
    else if Qlt_le_dec deltaY (- INPUT_CONFIG.SWIPE_THRESHOLD) then Some Up
    else None.

Definition handleTouchEnd (st : TouchState) : TouchState * option Direction :=
  if negb INPUT_CONFIG.TOUCH_ENABLED then (st, None)
  else
    match touchStart st, touchEnd st with
    | Some start, Some stop => (mkTouchState None None, swipeDirection start stop)
    | _, _ => (st, None)
    end.

(** ** The tile styles: [config/gameConfig.ts] and the helpers of the grid
    component

    A [Record<number, string>] is the list of its entries; reading it at a
    number is the lookup of the key, [None] for the [undefined] of a missing
    key. *)

Definition TILE_COLORS : list (Z * string) :=
  [(2, "bg-gradient-to-br from-pink-400 to-pink-600 text-white shadow-lg shadow-pink-500/50 border border-pink-300");
   (4, "bg-gradient-to-br from-purple-400 to-purple-600 text-white shadow-lg shadow-purple-500/50 border border-purple-300");
   (8, "bg-gradient-to-br from-blue-400 to-blue-600 text-white shadow-lg shadow-blue-500/50 border border-blue-300");
   (16, "bg-gradient-to-br from-cyan-400 to-cyan-600 text-white shadow-lg shadow-cyan-500/50 border border-cyan-300");
   (32, "bg-gradient-to-br from-green-400 to-green-600 text-white shadow-lg shadow-green-500/50 border border-green-300");
   (64, "bg-gradient-to-br from-lime-400 to-lime-600 text-white shadow-lg shadow-lime-500/50 border border-lime-300");
   (128, "bg-gradient-to-br from-yellow-400 to-yellow-600 text-black shadow-lg shadow-yellow-500/50 border border-yellow-300");
   (256, "bg-gradient-to-br from-orange-400 to-orange-600 text-white shadow-lg shadow-orange-500/50 border border-orange-300");
   (512, "bg-gradient-to-br from-red-400 to-red-600 text-white shadow-lg shadow-red-500/50 border border-red-300");
   (1024, "bg-gradient-to-br from-fuchsia-400 to-fuchsia-600 text-white shadow-lg shadow-fuchsia-500/50 border border-fuchsia-300");
   (2048, "bg-gradient-to-br from-violet-400 via-purple-500 to-pink-500 text-white shadow-xl shadow-violet-500/60 border-2 border-violet-300 animate-pulse")]%Z.

Definition SUPER_TILE_COLORS : list (Z * string) :=
  [(4096, "bg-gradient-to-br from-emerald-400 via-teal-500 to-cyan-500 text-white shadow-xl shadow-emerald-500/60 border-2 border-emerald-300 animate-pulse");
   (8192, "bg-gradient-to-br from-rose-400 via-pink-500 to-fuchsia-500 text-white shadow-xl shadow-rose-500/60 border-2 border-rose-300 animate-pulse");
   (16384, "bg-gradient-to-br from-indigo-400 via-purple-500 to-pink-500 text-white shadow-xl shadow-indigo-500/60 border-2 border-indigo-300 animate-pulse")]%Z.

Module TILE_FONT_SIZES.
Definition small : string := "text-2xl font-black".
Definition medium : string := "text-xl font-black".
Definition large : string := "text-lg font-black".
End TILE_FONT_SIZES.

Definition EMPTY_TILE_COLOR : string :=
  "bg-gray-800/40 backdrop-blur-sm border border-gray-600/30 shadow-inner".

(** The literal that [getTileColor] returns last. *)
Definition RAINBOW_TILE_COLOR : string :=
  "bg-gradient-to-br from-red-400 via-yellow-400 via-green-400 via-blue-400 to-purple-400 text-white shadow-xl shadow-rainbow animate-pulse border-2 border-white".

Fixpoint recordGet (record : list (Z * string)) (key : Z) : option string :=
  match record with
  | [] => None
  | (k, v) :: record' => if (k =? key)%Z then Some v else recordGet record' key
  end.

(** The truth value of a record read: [undefined] and the empty string are
    false. *)
Definition truthy (x : option string) : bool :=
  match x with
  | Some s => negb (String.eqb s EmptyString)
  | None => false
  end.

(** [r[value]] where the source returns it: the read was truthy, so it is a
    string. *)
Definition readString (x : option string) : string := default EmptyString x.

Definition getTileColor (value : Cell) : string :=
  match value with
  | None => EMPTY_TILE_COLOR
  | Some value =>
      if (4096 <=? value)%Z && truthy (recordGet SUPER_TILE_COLORS value)
      then readString (recordGet SUPER_TILE_COLORS value)
      else if truthy (recordGet TILE_COLORS value)
      then readString (recordGet TILE_COLORS value)
      else RAINBOW_TILE_COLOR
  end.

Definition getTileFontSize (value : Cell) : string :=
  match value with
  | None => TILE_FONT_SIZES.small
  | Some value =>
      if (value <? 100)%Z then TILE_FONT_SIZES.small
      else if (value <? 1000)%Z then TILE_FONT_SIZES.medium
      else TILE_FONT_SIZES.large
  end.

Definition getSpecialEffects (value : Cell) : string :=
  match value with
  | None => EmptyString
  | Some value =>
      if (value =? 2048)%Z then "animate-pulse"
      else if (512 <=? value)%Z then "animate-pulse"
      else EmptyString
  end.

(** ** Specification-level notions *)

(** A well-formed grid: [SIZE] rows of [SIZE] cells. *)
Definition is_grid (g : Grid) : Prop :=
  length g = SIZE ∧ Forall (λ rw, length rw = SIZE) g.

(** A power of two greater than or equal to 2. *)
Definition is_pow2 (v : Z) : Prop := ∃ k : Z, (1 ≤ k)%Z ∧ v = (2 ^ k)%Z.

Definition tile_ok (c : Cell) : Prop := from_option is_pow2 True c.

Definition tiles_ok (g : Grid) : Prop := Forall (Forall tile_ok) g.

(** The sum of the tiles of a line and of a grid. *)
Fixpoint lineSum (l : list Cell) : Z :=
  match l with
  | [] => 0
  | c :: l' => default 0%Z c + lineSum l'
  end.

Fixpoint gridSum (g : Grid) : Z :=
  match g with
  | [] => 0
  | rw :: g' => lineSum rw + gridSum g'
  end.

(** The number of tiles of a line and of a grid. *)
Fixpoint lineTiles (l : list Cell) : nat :=
  match l with
  | [] => 0
  | c :: l' => (if c is Some _ then 1 else 0) + lineTiles l'
  end.

Fixpoint gridTiles (g : Grid) : nat :=
  match g with
  | [] => 0
  | rw :: g' => lineTiles rw + gridTiles g'
  end.

(** The lines [moveGrid] hands to [processLine], read off the grid it is
    given: the rows for [Left], the reversed rows for [Right], the columns for
    [Up] and the reversed columns for [Down]. *)
Definition columnOf (g : Grid) (col : nat) : list Cell :=
  omap (λ rw : list Cell, rw !! col) g.

Definition linesOf (g : Grid) (d : Direction) : list (list Cell) :=
  match d with
  | Left => g
  | Right => reverse <$> g
  | Up => (λ col, columnOf g col) <$> seq 0 SIZE
  | Down => (λ col, reverse (columnOf g col)) <$> seq 0 SIZE
  end.

Fixpoint sumZ (l : list Z) : Z :=
  match l with
  | [] => 0
  | x :: l' => x + sumZ l'
  end.

(** *** The line engine as the specification words it (section 4.2)

    Step 2 of the specification: scan the dense sequence left to right; two
    equal neighbours give one value, the double, and the scan goes on after
    them; any other value is kept. *)
Fixpoint mergePass (dense : list Z) : list Z :=
  match dense with
  | [] => []
  | x :: tl =>
      match tl with
      | y :: rest => if (x =? y)%Z then (x * 2)%Z :: mergePass rest else x :: mergePass tl
      | [] => [x]
      end
  end.

(** The doubled values of step 2, added up. *)
Fixpoint mergeScore (dense : list Z) : Z :=
  match dense with
  | [] => 0
  | x :: tl =>
      match tl with
      | y :: rest => if (x =? y)%Z then (x * 2 + mergeScore rest)%Z else mergeScore tl
      | [] => 0
      end
  end.

(** Steps 1 to 4 of the specification. *)
Definition processLine_spec (line : list Cell) : Line.result :=
  let dense := omap id line in
  let merged : list Cell := Some <$> mergePass dense in
  let padded := merged ++ replicate (SIZE - length merged) None in
  Line.mk padded (negb (bool_decide (padded = line))) (mergeScore dense).

(** *** The grid transform, line by line *)

Definition lineOut (line : list Cell) : list Cell := Line.newLine (processLine line).
Definition lineChanged (line : list Cell) : bool := Line.changed (processLine line).
Definition lineScore (line : list Cell) : Z := Line.scoreGained (processLine line).

(** What [moveGrid] computes, stated on the lines of the grid it is given. *)
Definition move_result (g : Grid) (d : Direction) (r : Move.result) : Prop :=
  is_grid (Move.newGrid r)
  ∧ linesOf (Move.newGrid r) d = lineOut <$> linesOf g d
  ∧ Move.moved r = existsb lineChanged (linesOf g d)
  ∧ Move.scoreGained r = sumZ (lineScore <$> linesOf g d).

(** *** The tile spawner *)

(** [Math.random ()] yields a number from 0 inclusive to 1 exclusive. *)
Definition valid_draw (u : Q) : Prop := (0 <= u)%Q ∧ (u < 1)%Q.

Definition rowPositions (row : nat) : list (nat * nat) :=
  (λ col, (row, col)) <$> seq 0 SIZE.

(** The positions of the board in row-major order. *)
Definition positions : list (nat * nat) := seq 0 SIZE ≫= rowPositions.

Definition emptyAt (g : Grid) (p : nat * nat) : Prop := cellAt g p.1 p.2 = Some None.

#[global] Instance emptyAt_dec (g : Grid) (p : nat * nat) : Decision (emptyAt g p).
Proof. unfold emptyAt. apply _. Defined.

(** What a call of [addRandomTile] that returns has done: nothing on a board
    without an empty position, and otherwise one write of 2 or 4 into a cell
    that was empty. *)
Inductive spawned (g : Grid) : Grid → Prop :=
| spawned_full :
    filter (emptyAt g) positions = [] → spawned g g
| spawned_tile row col rw v :
    g !! row = Some rw → rw !! col = Some None → v = 2%Z ∨ v = 4%Z →
    spawned g (<[row := <[col := Some v]> rw]> g).

(** *** The terminal detector *)

(** A full line of four tiles, no two neighbours equal. *)
Definition stable_line (line : list Cell) : Prop :=
  ∃ x y z w : Z,
    line = [Some x; Some y; Some z; Some w] ∧ x ≠ y ∧ y ≠ z ∧ z ≠ w.

(** A board all of whose rows and columns are stable lines. *)
Definition stuck (g : Grid) : Prop :=
  Forall stable_line (linesOf g Left) ∧ Forall stable_line (linesOf g Up).

Definition no_empty (g : Grid) : Prop :=
  ∀ row col, cellAt g row col ≠ Some None.

Definition no_equal_neighbours (g : Grid) : Prop :=
  ∀ row col v,
    cellAt g row col = Some (Some v) →
    cellAt g row (col + 1) ≠ Some (Some v) ∧ cellAt g (row + 1) col ≠ Some (Some v).

Definition has_tile (g : Grid) : Prop :=
  ∃ row col v, cellAt g row col = Some (Some v).

(** *** The states of a game

    The initial state, and the states that [move] and [reset] give, whatever
    the draws. *)
Inductive reachable : GameState → Prop :=
| reachable_init draws gs :
    initializeGame draws = Some gs → reachable gs
| reachable_move gs d uPos uVal gs' :
    reachable gs → move gs d uPos uVal = Some gs' → reachable gs'
| reachable_reset gs draws gs' :
    reachable gs → reset gs draws = Some gs' → reachable gs'.

(** *** Sample boards and states *)

Definition board_mixed : Grid :=
  [[Some 2; Some 2; Some 2; Some 2]; [None; None; None; None];
   [Some 2; None; Some 2; Some 2]; [None; Some 4; None; Some 4]]%Z.

Definition board_stuck : Grid :=
  [[Some 2; Some 4; Some 2; Some 4]; [Some 4; Some 2; Some 4; Some 2];
   [Some 2; Some 4; Some 2; Some 4]; [Some 4; Some 2; Some 4; Some 2]]%Z.

Definition state_over : GameState := mkGameState board_stuck 100 true false.

Definition state_packed : GameState :=
  mkGameState [[Some 2; Some 4; None; None]; [Some 8; None; None; None];
               [None; None; None; None]; [None; None; None; None]]%Z 12 false false.

Definition state_won : GameState :=
  mkGameState [[Some 2048; Some 2048; None; None]; [None; None; None; None];
               [None; None; None; None]; [None; None; None; None]]%Z 20000 false true.

Definition state_start : GameState :=
  mkGameState [[Some 2; Some 2; None; None]; [None; None; None; None];
               [None; None; None; None]; [None; None; None; None]]%Z 0 false false.

(** *** Notions for the further properties *)

(** No two neighbours of a dense sequence are equal. *)
Fixpoint no_adjacent_equal (l : list Z) : Prop :=
  match l with
  | [] => True
  | x :: tl =>
      match tl with
      | y :: _ => x ≠ y ∧ no_adjacent_equal tl
      | [] => True
      end
  end.

(** Every tile of the line is positive. *)
Definition positive_tiles (line : list Cell) : Prop :=
  Forall (λ c : Cell, from_option (λ v, (0 < v)%Z) True c) line.

(** The board seen in a mirror, upside down, and across its diagonal. *)
Definition mirror (g : Grid) : Grid := reverse <$> g.
Definition flip (g : Grid) : Grid := reverse g.
Definition transpose (g : Grid) : Grid := (λ col, columnOf g col) <$> seq 0 SIZE.

(** The result of [moveGrid] with its grid replaced. *)
Definition with_grid (f : Grid → Grid) (r : Move.result) : Move.result :=
  Move.mk (f (Move.newGrid r)) (Move.moved r) (Move.scoreGained r).

(** The order in which [getEmptyCells] scans the board. *)
Definition rowMajor_lt (p q : nat * nat) : Prop :=
  p.1 < q.1 ∨ (p.1 = q.1 ∧ p.2 < q.2).

(** An empty cell, or one of the two tiles that [addRandomTile] writes. *)
Definition fresh_cell (c : Cell) : Prop := c = None ∨ c = Some 2%Z ∨ c = Some 4%Z.

(** Successive calls of [move], each with its direction and its two draws. *)
Fixpoint play (gameState : GameState) (turns : list (Direction * Q * Q))
  : option GameState :=
  match turns with
  | [] => Some gameState
  | (d, uPos, uVal) :: turns' => gs' ← move gameState d uPos uVal; play gs' turns'
  end.


(** The facts kept by [initializeGame], [move] and [reset]: a 4x4 board of
    powers of two with two tiles or more, flags that agree with the board,
    and a score that is a non-negative multiple of 4. *)
Definition state_ok (gs : GameState) : Prop :=
  is_grid (grid gs) ∧ tiles_ok (grid gs)
  ∧ 2 ≤ gridTiles (grid gs)
  ∧ isGameOver (grid gs) = Some (gameOver gs)
  ∧ (hasWon (grid gs) = Some true → won gs = true)
  ∧ (0 ≤ score gs)%Z ∧ (4 | score gs)%Z.

(** *** Gestures

    A gesture as the browser reports it: one [touchstart], the [touchmove]
    positions, one [touchend]. *)
Definition Gesture : Type := (Q * Q) * list (Q * Q).

Definition runGesture (st : TouchState) (gesture : Gesture)
  : TouchState * option Direction :=
  handleTouchEnd
    (foldl (λ st pos, handleTouchMove st pos.1 pos.2)
           (handleTouchStart st gesture.1.1 gesture.1.2) gesture.2).

Fixpoint runGestures (st : TouchState) (gestures : list Gesture)
  : list (option Direction) :=
  match gestures with
  | [] => []
  | gesture :: rest =>
      let '(st', fired) := runGesture st gesture in fired :: runGestures st' rest
  end.

Definition opposite (d : Direction) : Direction :=
  match d with
  | Up => Down
  | Down => Up
  | Left => Right
  | Right => Left
  end.

(** * Properties *)

(** ** The line engine *)

Section line_engine.
Implicit Types (l dense : list Z) (line : list Cell).

(** Induction following the two-cell look-ahead of the merge. *)
Lemma pair_ind (P : list Z → Prop) :
  P [] → (∀ x, P [x]) → (∀ x y l, P l → P (y :: l) → P (x :: y :: l)) →
  ∀ l, P l.
Proof.
  intros Hnil Hone Hstep l.
  cut (P l ∧ ∀ x, P (x :: l)); [tauto|].
  induction l as [|y l [IH1 IH2]]; split; auto.
Qed.

(** The equations of the three recursions at a line of two cells or more. *)
Lemma mergeLoop_step x y l mergedLine s :
  mergeLoop (x :: y :: l) mergedLine s
  = if (x =? y)%Z
    then mergeLoop l (mergedLine ++ [Some (x * 2)%Z]) (s + x * 2)%Z
    else mergeLoop (y :: l) (mergedLine ++ [Some x]) s.
Proof. reflexivity. Qed.

Lemma mergePass_step x y l :
  mergePass (x :: y :: l)
  = if (x =? y)%Z then (x * 2)%Z :: mergePass l else x :: mergePass (y :: l).
Proof. reflexivity. Qed.

Lemma mergeScore_step x y l :
  mergeScore (x :: y :: l)
  = if (x =? y)%Z then (x * 2 + mergeScore l)%Z else mergeScore (y :: l).
Proof. reflexivity. Qed.

Lemma mergeLoop_mergePass l : ∀ mergedLine s,
  mergeLoop l mergedLine s
  = (mergedLine ++ (Some <$> mergePass l), (s + mergeScore l)%Z).
Proof.
  induction l as [| x | x y l IH1 IH2] using pair_ind; intros acc s.
  - cbn. by rewrite app_nil_r, Z.add_0_r.
  - cbn. by rewrite Z.add_0_r.
  - rewrite mergeLoop_step, mergePass_step, mergeScore_step.
    destruct (x =? y)%Z.
    + rewrite IH1, <- app_assoc. cbn. f_equal. lia.
    + rewrite IH2, <- app_assoc. done.
Qed.

Lemma processLine_unfold line : processLine line = processLine_spec line.
Proof.
  unfold processLine, processLine_spec, padLine.
  rewrite mergeLoop_mergePass. cbn.
  f_equal. f_equal. apply bool_decide_ext. split; congruence.
Qed.

Lemma mergePass_length l : length (mergePass l) ≤ length l.
Proof.
  induction l as [| x | x y l IH1 IH2] using pair_ind; [done..|].
  rewrite mergePass_step.
  destruct (x =? y)%Z; cbn [length] in *; lia.
Qed.

(** A pass that keeps the number of tiles has merged nothing. *)
Lemma mergeScore_no_merge l :
  length (mergePass l) = length l → mergeScore l = 0%Z.
Proof.
  induction l as [| x | x y l IH1 IH2] using pair_ind; [done..|].
  rewrite mergePass_step, mergeScore_step.
  destruct (x =? y)%Z; cbn [length].
  - pose proof (mergePass_length l). lia.
  - intros ?. apply IH2. cbn [length]. lia.
Qed.

Lemma mergePass_sum l : sumZ (mergePass l) = sumZ l.
Proof.
  induction l as [| x | x y l IH1 IH2] using pair_ind; [done..|].
  rewrite mergePass_step.
  destruct (x =? y)%Z eqn:E; cbn [sumZ] in *.
  - apply Z.eqb_eq in E. lia.
  - lia.
Qed.

Lemma is_pow2_double v : is_pow2 v → is_pow2 (v * 2).
Proof.
  intros (k & Hk & ->). exists (k + 1)%Z. split; [lia|].
  rewrite Z.pow_add_r by lia. lia.
Qed.

Lemma mergePass_pow2 l : Forall is_pow2 l → Forall is_pow2 (mergePass l).
Proof.
  induction l as [| x | x y l IH1 IH2] using pair_ind; [done..|].
  rewrite mergePass_step.
  intros H. inversion H as [|? ? Hx Hyl]; subst.
  inversion Hyl as [|? ? Hy Hl]; subst.
  destruct (x =? y)%Z; constructor; auto using is_pow2_double.
Qed.

Lemma omap_id_length line : length (omap id line) = lineTiles line.
Proof. induction line as [|[v|] line IH]; cbn; lia. Qed.

Lemma lineTiles_length line : lineTiles line ≤ length line.
Proof. induction line as [|[v|] line IH]; cbn; lia. Qed.

Lemma omap_id_sum line : sumZ (omap id line) = lineSum line.
Proof. induction line as [|[v|] line IH]; cbn in *; lia. Qed.

Lemma omap_id_pow2 line : Forall tile_ok line → Forall is_pow2 (omap id line).
Proof.
  induction 1 as [|[v|] line Hc _ IH]; cbn; [constructor|by constructor|done].
Qed.

Lemma omap_id_Some l : omap id (Some <$> l) = l.
Proof. induction l as [|x l IH]; cbn; by f_equal. Qed.

Lemma omap_id_app line1 line2 :
  omap id (line1 ++ line2) = omap id line1 ++ omap id line2.
Proof. apply omap_app. Qed.

Lemma omap_id_replicate_None n : omap id (replicate n (None : Cell)) = [].
Proof. induction n; cbn; auto. Qed.

Lemma lineSum_app line1 line2 : lineSum (line1 ++ line2) = (lineSum line1 + lineSum line2)%Z.
Proof. induction line1 as [|c line1 IH]; cbn; lia. Qed.

Lemma lineSum_replicate_None n : lineSum (replicate n None) = 0%Z.
Proof. induction n; cbn; lia. Qed.

Lemma lineSum_Some l : lineSum (Some <$> l) = sumZ l.
Proof. induction l as [|x l IH]; cbn; lia. Qed.

Lemma lineSum_reverse line : lineSum (reverse line) = lineSum line.
Proof.
  induction line as [|c line IH]; [done|].
  rewrite reverse_cons, lineSum_app, IH. cbn. lia.
Qed.

(** The dense part of the new line is the merged sequence. *)
Lemma newLine_dense line :
  omap id (Line.newLine (processLine line)) = mergePass (omap id line).
Proof.
  rewrite processLine_unfold. cbn.
  by rewrite omap_id_app, omap_id_Some, omap_id_replicate_None, app_nil_r.
Qed.

Lemma newLine_length line :
  length line = SIZE → length (Line.newLine (processLine line)) = SIZE.
Proof.
  intros Hlen. rewrite processLine_unfold. cbn.
  rewrite length_app, length_replicate, length_fmap.
  pose proof (mergePass_length (omap id line)).
  pose proof (lineTiles_length line). rewrite omap_id_length in *.
  unfold SIZE in *. lia.
Qed.

Lemma newLine_sum line : lineSum (Line.newLine (processLine line)) = lineSum line.
Proof.
  rewrite processLine_unfold. cbn.
  by rewrite lineSum_app, lineSum_replicate_None, lineSum_Some,
    mergePass_sum, omap_id_sum, Z.add_0_r.
Qed.

Lemma newLine_pow2 line :
  Forall tile_ok line → Forall tile_ok (Line.newLine (processLine line)).
Proof.
  intros H. rewrite processLine_unfold. cbn.
  apply Forall_app. split.
  - apply Forall_fmap.
    pose proof (mergePass_pow2 _ (omap_id_pow2 _ H)) as Hm.
    induction Hm; by constructor.
  - by apply Forall_replicate.
Qed.

Lemma unchanged_newLine line :
  Line.changed (processLine line) = false → Line.newLine (processLine line) = line.
Proof.
  rewrite processLine_unfold. cbn. intros H.
  apply negb_false_iff, bool_decide_eq_true in H. done.
Qed.

(** A line that [processLine] reports unchanged scores nothing. *)
Lemma unchanged_score line :
  Line.changed (processLine line) = false → Line.scoreGained (processLine line) = 0%Z.
Proof.
  intros H. pose proof (newLine_dense line) as Hd.
  rewrite (unchanged_newLine _ H) in Hd.
  rewrite processLine_unfold. cbn.
  apply mergeScore_no_merge. by rewrite <- Hd.
Qed.
End line_engine.

(** ** The grid transform *)

Section grid_transform.
Implicit Types (g : Grid) (d : Direction) (line : list Cell).

Lemma is_grid_cells g :
  is_grid g →
  ∃ a0 a1 a2 a3 b0 b1 b2 b3 c0 c1 c2 c3 d0 d1 d2 d3 : Cell,
    g = [[a0; a1; a2; a3]; [b0; b1; b2; b3]; [c0; c1; c2; c3]; [d0; d1; d2; d3]].
Proof.
  intros [Hlen Hrows].
  do 4 (destruct g as [|? g]; [discriminate Hlen|]).
  destruct g; [clear Hlen|discriminate Hlen].
  repeat match goal with
         | H : Forall _ (_ :: _) |- _ => inversion_clear H
         end.
  repeat match goal with
         | H : length ?r = SIZE |- _ =>
             do 4 (destruct r as [|? r]; [discriminate H|]);
             destruct r; [clear H|discriminate H]
         end.
  do 16 eexists. reflexivity.
Qed.

Lemma is_grid_of_cells (a0 a1 a2 a3 b0 b1 b2 b3 c0 c1 c2 c3 d0 d1 d2 d3 : Cell) :
  is_grid [[a0; a1; a2; a3]; [b0; b1; b2; b3]; [c0; c1; c2; c3]; [d0; d1; d2; d3]].
Proof. split; [done|]. repeat constructor. Qed.

(** The facts about one processed line of four cells that the loops of
    [moveGrid] rely on. *)
Lemma line_facts (a b c e : Cell) :
  ∃ x0 x1 x2 x3 ch sc,
    processLine [a; b; c; e] = Line.mk [x0; x1; x2; x3] ch sc
    ∧ (ch = false → [x0; x1; x2; x3] = [a; b; c; e] ∧ sc = 0%Z).
Proof.
  pose proof (newLine_length [a; b; c; e] eq_refl) as Hlen.
  pose proof (unchanged_newLine [a; b; c; e]) as Hsame.
  pose proof (unchanged_score [a; b; c; e]) as Hzero.
  destruct (processLine [a; b; c; e]) as [nl ch sc]. cbn in *.
  destruct nl as [|x0 [|x1 [|x2 [|x3 [|]]]]]; try discriminate Hlen.
  exists x0, x1, x2, x3, ch, sc. split; [done|]. auto.
Qed.

(** One turn of a loop of [moveGrid]: name the result of the line, then
    follow the branch on its [changed] flag. *)
Ltac line_step a b c e :=
  let H := fresh "H" in
  let E := fresh "E" in
  destruct (line_facts a b c e) as (? & ? & ? & ? & [] & ? & E & H);
  rewrite E; clear E; cbn -[processLine is_grid];
  [clear H | destruct H as [[= -> -> -> ->] ->]; [reflexivity|]].

Ltac move_result_done :=
  eexists; split; [reflexivity|];
  unfold move_result; cbn -[is_grid];
  split_and!; [apply is_grid_of_cells|reflexivity|reflexivity|lia].

Lemma moveGrid_Up_cells (a0 a1 a2 a3 b0 b1 b2 b3 c0 c1 c2 c3 d0 d1 d2 d3 : Cell) :
  let g := [[a0; a1; a2; a3]; [b0; b1; b2; b3]; [c0; c1; c2; c3]; [d0; d1; d2; d3]] in
  ∃ r, moveGrid g Up = Some r ∧ move_result g Up r.
Proof.
  intros g. subst g. unfold move_result, moveGrid, lineOut, lineChanged, lineScore.
  cbn -[processLine is_grid].
  line_step a0 b0 c0 d0; line_step a1 b1 c1 d1;
    line_step a2 b2 c2 d2; line_step a3 b3 c3 d3; move_result_done.
Qed.

Lemma moveGrid_Down_cells (a0 a1 a2 a3 b0 b1 b2 b3 c0 c1 c2 c3 d0 d1 d2 d3 : Cell) :
  let g := [[a0; a1; a2; a3]; [b0; b1; b2; b3]; [c0; c1; c2; c3]; [d0; d1; d2; d3]] in
  ∃ r, moveGrid g Down = Some r ∧ move_result g Down r.
Proof.
  intros g. subst g. unfold move_result, moveGrid, lineOut, lineChanged, lineScore.
  cbn -[processLine is_grid].
  line_step d0 c0 b0 a0; line_step d1 c1 b1 a1;
    line_step d2 c2 b2 a2; line_step d3 c3 b3 a3; move_result_done.
Qed.

Lemma moveGrid_Left_cells (a0 a1 a2 a3 b0 b1 b2 b3 c0 c1 c2 c3 d0 d1 d2 d3 : Cell) :
  let g := [[a0; a1; a2; a3]; [b0; b1; b2; b3]; [c0; c1; c2; c3]; [d0; d1; d2; d3]] in
  ∃ r, moveGrid g Left = Some r ∧ move_result g Left r.
Proof.
  intros g. subst g. unfold move_result, moveGrid, lineOut, lineChanged, lineScore.
  cbn -[processLine is_grid].
  line_step a0 a1 a2 a3; line_step b0 b1 b2 b3;
    line_step c0 c1 c2 c3; line_step d0 d1 d2 d3; move_result_done.
Qed.

Lemma moveGrid_Right_cells (a0 a1 a2 a3 b0 b1 b2 b3 c0 c1 c2 c3 d0 d1 d2 d3 : Cell) :
  let g := [[a0; a1; a2; a3]; [b0; b1; b2; b3]; [c0; c1; c2; c3]; [d0; d1; d2; d3]] in
  ∃ r, moveGrid g Right = Some r ∧ move_result g Right r.
Proof.
  intros g. subst g. unfold move_result, moveGrid, lineOut, lineChanged, lineScore.
  cbn -[processLine is_grid].
  line_step a3 a2 a1 a0; line_step b3 b2 b1 b0;
    line_step c3 c2 c1 c0; line_step d3 d2 d1 d0; move_result_done.
Qed.

(** On a well-formed grid [moveGrid] returns, and its result is the one
    obtained line by line. *)
Lemma moveGrid_total g d :
  is_grid g → ∃ r, moveGrid g d = Some r ∧ move_result g d r.
Proof.
  intros Hg. apply is_grid_cells in Hg
    as (a0&a1&a2&a3&b0&b1&b2&b3&c0&c1&c2&c3&d0&d1&d2&d3&->).
  destruct d.
  - apply moveGrid_Up_cells.
  - apply moveGrid_Down_cells.
  - apply moveGrid_Left_cells.
  - apply moveGrid_Right_cells.
Qed.

Lemma Forall4 {A} (P : A → Prop) (a b c e : A) :
  Forall P [a; b; c; e] ↔ P a ∧ P b ∧ P c ∧ P e.
Proof. rewrite !Forall_cons. intuition constructor. Qed.

(** Sum, tiles and power-of-two cells of a grid, read off its lines. *)
Lemma gridSum_lines g d : is_grid g → gridSum g = sumZ (lineSum <$> linesOf g d).
Proof.
  intros Hg. apply is_grid_cells in Hg
    as (a0&a1&a2&a3&b0&b1&b2&b3&c0&c1&c2&c3&d0&d1&d2&d3&->).
  destruct d; cbn; lia.
Qed.

Lemma tiles_ok_lines g d :
  is_grid g → tiles_ok g ↔ Forall (Forall tile_ok) (linesOf g d).
Proof.
  intros Hg. apply is_grid_cells in Hg
    as (a0&a1&a2&a3&b0&b1&b2&b3&c0&c1&c2&c3&d0&d1&d2&d3&->).
  unfold tiles_ok. destruct d; cbn; rewrite !Forall4; tauto.
Qed.

Lemma sumZ_lineSum_lineOut (ls : list (list Cell)) :
  sumZ (lineSum <$> (lineOut <$> ls)) = sumZ (lineSum <$> ls).
Proof.
  induction ls as [|line ls IH]; [done|].
  cbn. unfold lineOut at 1. rewrite newLine_sum. lia.
Qed.

Lemma moveGrid_sum g d r :
  is_grid g → moveGrid g d = Some r → gridSum (Move.newGrid r) = gridSum g.
Proof.
  intros Hg Hr. destruct (moveGrid_total g d Hg) as (r' & Hr' & Hg' & Hlines & _).
  simplify_eq.
  by rewrite (gridSum_lines _ d Hg'), Hlines, sumZ_lineSum_lineOut, <- gridSum_lines.
Qed.

Lemma moveGrid_tiles_ok g d r :
  is_grid g → tiles_ok g → moveGrid g d = Some r →
  is_grid (Move.newGrid r) ∧ tiles_ok (Move.newGrid r).
Proof.
  intros Hg Hok Hr. destruct (moveGrid_total g d Hg) as (r' & Hr' & Hg' & Hlines & _).
  simplify_eq. split; [done|].
  apply (tiles_ok_lines _ d Hg'). rewrite Hlines.
  apply (tiles_ok_lines _ d Hg) in Hok.
  apply Forall_fmap. eapply Forall_impl; [exact Hok|].
  intros line Hline. by apply newLine_pow2.
Qed.
End grid_transform.

(** ** Claims about the line engine and the grid transform *)

(** C1. For every 4x4 grid and every direction, [moveGrid] returns; its
    [moved] is the logical OR of the [changed] flags of the four lines it
    processes, and its [scoreGained] is the sum of the [scoreGained] of all
    four lines, although the loop adds the score of a line only when that
    line changed. *)
Theorem moveGrid_moved_score (g : Grid) (d : Direction) :
  is_grid g →
  ∃ r, moveGrid g d = Some r
       ∧ length (linesOf g d) = SIZE
       ∧ Move.moved r
         = existsb (λ line, Line.changed (processLine line)) (linesOf g d)
       ∧ Move.scoreGained r
         = sumZ ((λ line, Line.scoreGained (processLine line)) <$> linesOf g d).
Proof.
  intros Hg. destruct (moveGrid_total g d Hg) as (r & Hr & _ & _ & Hmoved & Hscore).
  exists r. split_and!; [done| |done|done].
  destruct Hg as [Hlen _]. destruct d; cbn; by rewrite ?length_fmap.
Qed.

Lemma moveGrid_moved_score_witness :
  ∃ r, moveGrid board_mixed Up = Some r
       ∧ length (linesOf board_mixed Up) = SIZE
       ∧ Move.moved r
         = existsb (λ line, Line.changed (processLine line)) (linesOf board_mixed Up)
       ∧ Move.scoreGained r
         = sumZ ((λ line, Line.scoreGained (processLine line)) <$> linesOf board_mixed Up).
Proof.
  apply (moveGrid_moved_score board_mixed Up).
  split; [reflexivity|repeat constructor].
Defined.

(** C2. [processLine] is the line engine of the specification: it removes
    the empty cells keeping the order, merges in one pass from the left, each
    pair of equal neighbours giving one cell of the double value that is added
    to [scoreGained] and that is not merged again, pads with empty cells and
    reports whether the line differs.  This holds for lines of any length, so
    for those of 4 cells.  Four equal tiles give two doubled tiles, never one
    quadrupled tile: [2,2,2,2] yields [4,4,empty,empty] and scores 8. *)
Theorem processLine_single_pass :
  (∀ line : list Cell, processLine line = processLine_spec line)
  ∧ (∀ v : Z,
       processLine [Some v; Some v; Some v; Some v]
       = Line.mk [Some (v * 2)%Z; Some (v * 2)%Z; None; None] true (v * 2 + v * 2)%Z)
  ∧ processLine [Some 2%Z; Some 2%Z; Some 2%Z; Some 2%Z]
    = Line.mk [Some 4%Z; Some 4%Z; None; None] true 8%Z
  ∧ Line.newLine (processLine [Some 2%Z; Some 2%Z; Some 2%Z; Some 2%Z])
    ≠ [Some 8%Z; None; None; None].
Proof.
  split_and!.
  - apply processLine_unfold.
  - intros v. rewrite processLine_unfold. unfold processLine_spec.
    change (omap id [Some v; Some v; Some v; Some v]) with [v; v; v; v].
    rewrite !mergePass_step, !mergeScore_step, !Z.eqb_refl.
    cbn -[Z.mul Z.add]. f_equal; [|lia].
    rewrite bool_decide_eq_false_2; [done|]. intros [=].
  - reflexivity.
  - intros [=].
Qed.

Lemma line_with_gap_example :
  processLine [Some 2%Z; None; Some 2%Z; Some 2%Z]
  = Line.mk [Some 4%Z; Some 2%Z; None; None] true 4%Z.
Proof. reflexivity. Qed.

(** C10. [processLine] conserves the total tile value of a line (of any
    length, so of 4 cells), and therefore [moveGrid] conserves the total tile
    value of a 4x4 board, in every direction. *)
Theorem move_conserves_sum :
  (∀ line : list Cell, lineSum (Line.newLine (processLine line)) = lineSum line)
  ∧ (∀ (g : Grid) (d : Direction),
       is_grid g →
       ∃ r, moveGrid g d = Some r ∧ gridSum (Move.newGrid r) = gridSum g).
Proof.
  split; [apply newLine_sum|].
  intros g d Hg. destruct (moveGrid_total g d Hg) as (r & Hr & _).
  exists r. split; [done|]. by eapply moveGrid_sum.
Qed.

Lemma move_conserves_sum_witness :
  ∃ r, moveGrid board_mixed Down = Some r
       ∧ gridSum (Move.newGrid r) = gridSum board_mixed.
Proof.
  apply (proj2 move_conserves_sum board_mixed Down).
  split; [reflexivity|repeat constructor].
Defined.

(** ** The tile spawner *)

Section spawner.
Implicit Types (g : Grid) (rw : list Cell) (p : nat * nat).

Lemma is_null_cellAt g row rw col :
  g !! row = Some rw → is_null (rw !! col) = true ↔ emptyAt g (row, col).
Proof.
  intros Hrow. unfold emptyAt, cellAt. cbn. rewrite Hrow. cbn.
  destruct (rw !! col) as [[v|]|]; cbn; split; congruence.
Qed.

(** The inner loop of [getEmptyCells] appends the empty positions of the
    row, the outer loop those of all rows. *)
Lemma getEmptyCells_row g row rw cols : ∀ acc,
  g !! row = Some rw →
  for_each cols (λ col emptyCells,
    rw ← g !! row;
    Some (if is_null (rw !! col) then emptyCells ++ [(row, col)] else emptyCells)) acc
  = Some (acc ++ filter (emptyAt g) ((λ col, (row, col)) <$> cols)).
Proof.
  intros acc Hrow. revert acc. rewrite Hrow.
  induction cols as [|col cols IH]; intros acc; cbn [for_each].
  - by rewrite app_nil_r.
  - cbn [mbind option_bind]. rewrite IH. f_equal.
    rewrite fmap_cons, filter_cons.
    pose proof (is_null_cellAt g row rw col Hrow) as Hnull.
    destruct (is_null (rw !! col)); case_decide.
    + by rewrite <- app_assoc.
    + exfalso. tauto.
    + exfalso. destruct Hnull as [_ Hnull]. by specialize (Hnull ltac:(done)).
    + done.
Qed.

Lemma getEmptyCells_rows g rows : ∀ acc,
  Forall (λ row, is_Some (g !! row)) rows →
  for_each rows (λ row emptyCells,
    for_each (seq 0 SIZE) (λ col emptyCells,
      rw ← g !! row;
      Some (if is_null (rw !! col) then emptyCells ++ [(row, col)] else emptyCells))
    emptyCells) acc
  = Some (acc ++ filter (emptyAt g) (rows ≫= rowPositions)).
Proof.
  intros acc Hrows. revert acc.
  induction Hrows as [|row rows [rw Hrow] _ IH]; intros acc; cbn [for_each].
  - by rewrite app_nil_r.
  - rewrite (getEmptyCells_row _ _ _ _ _ Hrow). cbn [mbind option_bind].
    rewrite IH, bind_cons, filter_app, <- app_assoc. done.
Qed.

Lemma getEmptyCells_filter g :
  length g = SIZE → getEmptyCells g = Some (filter (emptyAt g) positions).
Proof.
  intros Hlen. unfold getEmptyCells. rewrite getEmptyCells_rows; [done|].
  apply Forall_forall. intros row Hrow%elem_of_seq.
  apply lookup_lt_is_Some. lia.
Qed.

Lemma elem_of_positions p : p ∈ positions ↔ p.1 < SIZE ∧ p.2 < SIZE.
Proof.
  unfold positions, rowPositions. rewrite list_elem_of_bind. split.
  - intros (row & Hp & Hrow). apply list_elem_of_fmap in Hp as (col & -> & Hcol).
    apply elem_of_seq in Hrow, Hcol. cbn. lia.
  - destruct p as [row col]. cbn [fst snd]. intros [Hrow Hcol]. exists row. split.
    + apply list_elem_of_fmap. exists col. split; [done|]. apply elem_of_seq. lia.
    + apply elem_of_seq. lia.
Qed.

Lemma emptyAt_positions g p : is_grid g → emptyAt g p → p ∈ positions.
Proof.
  intros [Hlen Hrows] Hp. apply elem_of_positions.
  unfold emptyAt, cellAt in Hp.
  destruct (g !! p.1) as [rw|] eqn:Hrow; [|done]. cbn in Hp.
  pose proof (lookup_lt_Some _ _ _ Hrow). pose proof (lookup_lt_Some _ _ _ Hp).
  rewrite Forall_lookup in Hrows. specialize (Hrows _ _ Hrow). cbn in Hrows. lia.
Qed.

(** The draw of the position is an index into the empty cells. *)
Lemma randomIndex_range (u : Q) (n : nat) :
  valid_draw u → 0 < n →
  (0 ≤ Qfloor (u * inject_Z (Z.of_nat n)) < Z.of_nat n)%Z.
Proof.
  intros [Hlo Hhi] Hn.
  assert (0 < inject_Z (Z.of_nat n))%Q as Hpos.
  { rewrite <- (Zlt_Qlt 0). lia. }
  split.
  - rewrite <- (Qfloor_Z 0). apply Qfloor_resp_le.
    apply Qmult_le_0_compat; [done|]. by apply Qlt_le_weak.
  - rewrite Zlt_Qlt. eapply Qle_lt_trans; [apply Qfloor_le|].
    rewrite <- (Qmult_1_l (inject_Z (Z.of_nat n))) at 2.
    by apply Qmult_lt_compat_r.
Qed.

Lemma lookupZ_Some {A} (l : list A) (i : Z) :
  (0 ≤ i < Z.of_nat (length l))%Z → ∃ x, lookupZ l i = Some x ∧ x ∈ l.
Proof.
  intros Hi. unfold lookupZ.
  destruct (i <? 0)%Z eqn:E; [apply Z.ltb_lt in E; lia|].
  destruct (lookup_lt_is_Some_2 l (Z.to_nat i)) as [x Hx]; [lia|].
  exists x. split; [done|]. by eapply list_elem_of_lookup_2.
Qed.

Lemma lookupZ_elem_of {A} (l : list A) (i : Z) x : lookupZ l i = Some x → x ∈ l.
Proof.
  unfold lookupZ. destruct (i <? 0)%Z; [done|]. apply list_elem_of_lookup_2.
Qed.

Lemma addRandomTile_spawned g uPos uVal g' :
  length g = SIZE → addRandomTile g uPos uVal = Some g' → spawned g g'.
Proof.
  intros Hlen. unfold addRandomTile. rewrite (getEmptyCells_filter _ Hlen).
  cbn [mbind option_bind].
  destruct (filter (emptyAt g) positions) as [|p es] eqn:Hes.
  { cbn. intros [= <-]. by constructor. }
  cbn [length Nat.eqb].
  destruct (lookupZ _ _) as [[row col]|] eqn:Hidx; [|done]. cbn [mbind option_bind].
  destruct (g !! row) as [rw|] eqn:Hrow; [|done]. cbn. intros [= <-].
  apply lookupZ_elem_of in Hidx. rewrite <- Hes in Hidx.
  apply list_elem_of_filter in Hidx as [Hempty _].
  unfold emptyAt, cellAt in Hempty. cbn in Hempty. rewrite Hrow in Hempty.
  econstructor; [done..|]. destruct (Qlt_le_dec _ _); auto.
Qed.

Lemma addRandomTile_total g uPos uVal :
  is_grid g → valid_draw uPos → ∃ g', addRandomTile g uPos uVal = Some g'.
Proof.
  intros Hg Hu. unfold addRandomTile.
  rewrite (getEmptyCells_filter _ (proj1 Hg)). cbn [mbind option_bind].
  destruct (filter (emptyAt g) positions) as [|p es] eqn:Hes; [by eexists|].
  cbn [length Nat.eqb].
  destruct (lookupZ_Some (p :: es)
              (Qfloor (uPos * inject_Z (Z.of_nat (length (p :: es))))))
    as ([row col] & Hidx & Hin).
  { apply randomIndex_range; [done|]. cbn. lia. }
  cbn [length] in Hidx. rewrite Hidx. cbn [mbind option_bind].
  rewrite <- Hes in Hin. apply list_elem_of_filter in Hin as [Hempty _].
  unfold emptyAt, cellAt in Hempty. cbn in Hempty.
  destruct (g !! row) as [rw|]; [|done]. by eexists.
Qed.

Lemma cellAt_spawn_eq g row col rw (x : Cell) :
  g !! row = Some rw → col < length rw →
  cellAt (<[row := <[col := x]> rw]> g) row col = Some x.
Proof.
  intros Hrow Hcol. unfold cellAt.
  rewrite list_lookup_insert_eq by by eapply lookup_lt_Some.
  cbn. by apply list_lookup_insert_eq.
Qed.

Lemma cellAt_spawn_ne g row col rw (x : Cell) row' col' :
  g !! row = Some rw → (row', col') ≠ (row, col) →
  cellAt (<[row := <[col := x]> rw]> g) row' col' = cellAt g row' col'.
Proof.
  intros Hrow Hne. unfold cellAt.
  destruct (decide (row = row')) as [<-|Hr].
  - rewrite list_lookup_insert_eq by by eapply lookup_lt_Some.
    rewrite Hrow. cbn. apply list_lookup_insert_ne. congruence.
  - by rewrite list_lookup_insert_ne.
Qed.

Lemma lineTiles_spawn rw col v :
  rw !! col = Some None → lineTiles (<[col := Some v]> rw) = lineTiles rw + 1.
Proof.
  revert col. induction rw as [|c rw IH]; intros col H; [by destruct col|].
  destruct col as [|col]; cbn in H.
  - injection H as ->. cbn. lia.
  - change (<[S col := Some v]> (c :: rw)) with (c :: <[col := Some v]> rw).
    cbn [lineTiles]. rewrite (IH _ H). lia.
Qed.

Lemma gridTiles_insert g row rw rw' :
  g !! row = Some rw →
  gridTiles (<[row := rw']> g) + lineTiles rw = gridTiles g + lineTiles rw'.
Proof.
  revert row. induction g as [|r g IH]; intros row H; [by destruct row|].
  destruct row as [|row]; cbn in H.
  - injection H as ->. cbn. lia.
  - change (<[S row := rw']> (r :: g)) with (r :: <[row := rw']> g).
    cbn [gridTiles]. specialize (IH _ H). lia.
Qed.

Lemma spawned_is_grid g g' : is_grid g → spawned g g' → is_grid g'.
Proof.
  intros [Hlen Hrows] [|row col rw v Hrow Hcol Hv]; [done|]. split.
  - by rewrite length_insert.
  - apply Forall_insert; [done|]. rewrite length_insert.
    rewrite Forall_lookup in Hrows. by apply (Hrows _ _ Hrow).
Qed.

Lemma is_pow2_2 : is_pow2 2.
Proof. exists 1%Z. split; [lia|done]. Qed.

Lemma is_pow2_4 : is_pow2 4.
Proof. exists 2%Z. split; [lia|done]. Qed.

Lemma spawned_tiles_ok g g' : tiles_ok g → spawned g g' → tiles_ok g'.
Proof.
  intros Hok [|row col rw v Hrow Hcol Hv]; [done|].
  apply Forall_insert; [done|]. apply Forall_insert.
  - unfold tiles_ok in Hok. rewrite Forall_lookup in Hok. by apply (Hok _ _ Hrow).
  - destruct Hv as [-> | ->]; cbn; [apply is_pow2_2|apply is_pow2_4].
Qed.

Lemma no_empty_filter g :
  (∀ row col, cellAt g row col ≠ Some None) → filter (emptyAt g) positions = [].
Proof.
  intros Hfull. destruct (filter (emptyAt g) positions) as [|p es] eqn:Hes; [done|].
  assert (p ∈ filter (emptyAt g) positions) as Hp by (rewrite Hes; constructor).
  apply list_elem_of_filter in Hp as [Hp _]. by apply Hfull in Hp.
Qed.
End spawner.

(** ** Claims about the tile spawner *)

(** C8. For every 4x4 grid with at least one empty cell and every outcome of
    the two draws, [addRandomTile] returns a grid in which one cell that was
    empty holds 2 or 4 and every other cell is as before; the number of tiles
    grows by exactly one. *)
Theorem addRandomTile_one_tile (g : Grid) (uPos uVal : Q) :
  is_grid g →
  (∃ row col, cellAt g row col = Some None) →
  valid_draw uPos → valid_draw uVal →
  ∃ g' row col v,
    addRandomTile g uPos uVal = Some g'
    ∧ is_grid g'
    ∧ cellAt g row col = Some None
    ∧ (v = 2%Z ∨ v = 4%Z)
    ∧ cellAt g' row col = Some (Some v)
    ∧ (∀ row' col', (row', col') ≠ (row, col) → cellAt g' row' col' = cellAt g row' col')
    ∧ gridTiles g' = gridTiles g + 1.
Proof.
  intros Hg (row0 & col0 & Hempty) Hpos _.
  destruct (addRandomTile_total g uPos uVal Hg Hpos) as [g' Hadd].
  pose proof (addRandomTile_spawned _ _ _ _ (proj1 Hg) Hadd) as Hsp.
  pose proof (spawned_is_grid _ _ Hg Hsp) as Hg'.
  destruct Hsp as [Hnone|row col rw v Hrow Hcol Hv].
  - exfalso.
    assert ((row0, col0) ∈ filter (emptyAt g) positions) as Hin.
    { apply list_elem_of_filter. split; [done|]. by apply (emptyAt_positions g). }
    rewrite Hnone in Hin. by apply not_elem_of_nil in Hin.
  - exists (<[row := <[col := Some v]> rw]> g), row, col, v.
    split_and!; [done|done| |done| | |].
    + unfold cellAt. by rewrite Hrow.
    + apply cellAt_spawn_eq; [done|]. by eapply lookup_lt_Some.
    + intros row' col' Hne. by apply cellAt_spawn_ne.
    + pose proof (gridTiles_insert g row rw (<[col := Some v]> rw) Hrow) as Hcount.
      rewrite (lineTiles_spawn _ _ _ Hcol) in Hcount. lia.
Qed.

Lemma addRandomTile_one_tile_witness :
  ∃ g' row col v,
    addRandomTile board_mixed (1 # 2) (1 # 2) = Some g'
    ∧ is_grid g'
    ∧ cellAt board_mixed row col = Some None
    ∧ (v = 2%Z ∨ v = 4%Z)
    ∧ cellAt g' row col = Some (Some v)
    ∧ (∀ row' col', (row', col') ≠ (row, col)
                     → cellAt g' row' col' = cellAt board_mixed row' col')
    ∧ gridTiles g' = gridTiles board_mixed + 1.
Proof.
  apply (addRandomTile_one_tile board_mixed (1 # 2) (1 # 2)).
  - split; [reflexivity|repeat constructor].
  - exists 1, 0. reflexivity.
  - split; [discriminate|reflexivity].
  - split; [discriminate|reflexivity].
Defined.

(** C9. On a full 4x4 grid, one without an empty cell, [addRandomTile]
    returns a grid equal to its input whatever the draws: it does not fail. *)
Theorem addRandomTile_full (g : Grid) (uPos uVal : Q) :
  is_grid g →
  (∀ row col, cellAt g row col ≠ Some None) →
  addRandomTile g uPos uVal = Some g.
Proof.
  intros [Hlen _] Hfull. unfold addRandomTile.
  rewrite (getEmptyCells_filter _ Hlen), (no_empty_filter _ Hfull). reflexivity.
Qed.

Lemma addRandomTile_full_witness :
  addRandomTile board_stuck (1 # 2) (1 # 2) = Some board_stuck.
Proof.
  apply (addRandomTile_full board_stuck (1 # 2) (1 # 2)).
  - split; [reflexivity|repeat constructor].
  - intros row col.
    destruct row as [|[|[|[|row]]]]; destruct col as [|[|[|[|col]]]];
      cbn; discriminate.
Defined.

(** ** The terminal detector *)

(** Case analysis on an index: 0 to 3, or beyond the board. *)
Ltac index_cases i :=
  destruct i as [|[|[|[|i]]]].

(** Name the four tiles of a stable line. *)
Ltac use_stable H :=
  let E := fresh "E" in
  destruct H as (? & ? & ? & ? & E & ? & ? & ?); simplify_eq.

Section terminal_detector.
Implicit Types (g : Grid) (line : list Cell).

Lemma strict_eq_refl (x : option Cell) : strict_eq x x = true.
Proof. by apply bool_decide_eq_true_2. Qed.

Lemma strict_eq_tiles_ne (x y : Z) :
  x ≠ y → strict_eq (Some (Some x)) (Some (Some y)) = false.
Proof. intros Hne. apply bool_decide_eq_false_2. congruence. Qed.

Ltac null_check c :=
  destruct c as [c|]; cbn -[strict_eq]; [|right; reflexivity].

Ltac pair_check x y :=
  destruct (decide (x = y)) as [->|?];
  [rewrite (strict_eq_refl (Some (Some y)))
  |rewrite (strict_eq_tiles_ne x y) by done];
  cbn -[strict_eq]; [right; reflexivity|].

(** [isGameOver] follows its three scans: the cells in row-major order,
    then the horizontal pairs, then the vertical pairs. *)
Lemma isGameOver_cells_scan (a0 a1 a2 a3 b0 b1 b2 b3 c0 c1 c2 c3 d0 d1 d2 d3 : Cell) :
  let g := [[a0; a1; a2; a3]; [b0; b1; b2; b3]; [c0; c1; c2; c3]; [d0; d1; d2; d3]] in
  (isGameOver g = Some true ∧ stuck g) ∨ isGameOver g = Some false.
Proof.
  intros g. subst g. unfold isGameOver, stuck. cbn -[strict_eq linesOf].
  null_check a0. null_check a1. null_check a2. null_check a3.
  null_check b0. null_check b1. null_check b2. null_check b3.
  null_check c0. null_check c1. null_check c2. null_check c3.
  null_check d0. null_check d1. null_check d2. null_check d3.
  pair_check a0 a1. pair_check a1 a2. pair_check a2 a3.
  pair_check b0 b1. pair_check b1 b2. pair_check b2 b3.
  pair_check c0 c1. pair_check c1 c2. pair_check c2 c3.
  pair_check d0 d1. pair_check d1 d2. pair_check d2 d3.
  pair_check a0 b0. pair_check a1 b1. pair_check a2 b2. pair_check a3 b3.
  pair_check b0 c0. pair_check b1 c1. pair_check b2 c2. pair_check b3 c3.
  pair_check c0 d0. pair_check c1 d1. pair_check c2 d2. pair_check c3 d3.
  left. split; [reflexivity|].
  cbn. rewrite !Forall4. unfold stable_line. split_and!; by do 4 eexists.
Qed.

Lemma stuck_isGameOver_cells (a0 a1 a2 a3 b0 b1 b2 b3 c0 c1 c2 c3 d0 d1 d2 d3 : Cell) :
  let g := [[a0; a1; a2; a3]; [b0; b1; b2; b3]; [c0; c1; c2; c3]; [d0; d1; d2; d3]] in
  stuck g → isGameOver g = Some true.
Proof.
  intros g [Hrows Hcols]. subst g. cbn in Hrows, Hcols.
  rewrite Forall4 in Hrows, Hcols.
  destruct Hrows as (R0 & R1 & R2 & R3). destruct Hcols as (C0 & C1 & C2 & C3).
  use_stable R0. use_stable R1. use_stable R2. use_stable R3.
  use_stable C0. use_stable C1. use_stable C2. use_stable C3.
  unfold isGameOver. cbn -[strict_eq].
  rewrite !strict_eq_tiles_ne by done. reflexivity.
Qed.

Lemma isGameOver_stuck g :
  is_grid g →
  (isGameOver g = Some true ∧ stuck g) ∨ (isGameOver g = Some false ∧ ¬ stuck g).
Proof.
  intros Hg. apply is_grid_cells in Hg
    as (a0&a1&a2&a3&b0&b1&b2&b3&c0&c1&c2&c3&d0&d1&d2&d3&->).
  destruct (isGameOver_cells_scan a0 a1 a2 a3 b0 b1 b2 b3 c0 c1 c2 c3 d0 d1 d2 d3)
    as [?|Hfalse]; [by left|].
  right. split; [done|]. intros Hstuck.
  apply stuck_isGameOver_cells in Hstuck. congruence.
Qed.

Lemma stuck_no_empty g :
  is_grid g → stuck g ↔ no_empty g ∧ no_equal_neighbours g.
Proof.
  intros Hg. apply is_grid_cells in Hg
    as (a0&a1&a2&a3&b0&b1&b2&b3&c0&c1&c2&c3&d0&d1&d2&d3&->).
  split.
  - intros [Hrows Hcols]. cbn in Hrows, Hcols. rewrite Forall4 in Hrows, Hcols.
    destruct Hrows as (R0 & R1 & R2 & R3). destruct Hcols as (C0 & C1 & C2 & C3).
    use_stable R0. use_stable R1. use_stable R2. use_stable R3.
    use_stable C0. use_stable C1. use_stable C2. use_stable C3.
    split.
    + intros row col. index_cases row; index_cases col; cbn; discriminate.
    + intros row col v.
      index_cases row; index_cases col; cbn; intros [= ->]; split; congruence.
  - intros [Hne Heq].
    pose proof (Hne 0 0). pose proof (Hne 0 1). pose proof (Hne 0 2). pose proof (Hne 0 3).
    pose proof (Hne 1 0). pose proof (Hne 1 1). pose proof (Hne 1 2). pose proof (Hne 1 3).
    pose proof (Hne 2 0). pose proof (Hne 2 1). pose proof (Hne 2 2). pose proof (Hne 2 3).
    pose proof (Hne 3 0). pose proof (Hne 3 1). pose proof (Hne 3 2). pose proof (Hne 3 3).
    clear Hne.
    destruct a0 as [a0|], a1 as [a1|], a2 as [a2|], a3 as [a3|]; try done.
    destruct b0 as [b0|], b1 as [b1|], b2 as [b2|], b3 as [b3|]; try done.
    destruct c0 as [c0|], c1 as [c1|], c2 as [c2|], c3 as [c3|]; try done.
    destruct d0 as [d0|], d1 as [d1|], d2 as [d2|], d3 as [d3|]; try done.
    destruct (Heq 0 0 a0 eq_refl). destruct (Heq 0 1 a1 eq_refl).
    destruct (Heq 0 2 a2 eq_refl). destruct (Heq 0 3 a3 eq_refl).
    destruct (Heq 1 0 b0 eq_refl). destruct (Heq 1 1 b1 eq_refl).
    destruct (Heq 1 2 b2 eq_refl). destruct (Heq 1 3 b3 eq_refl).
    destruct (Heq 2 0 c0 eq_refl). destruct (Heq 2 1 c1 eq_refl).
    destruct (Heq 2 2 c2 eq_refl). destruct (Heq 2 3 c3 eq_refl).
    destruct (Heq 3 0 d0 eq_refl). destruct (Heq 3 1 d1 eq_refl).
    destruct (Heq 3 2 d2 eq_refl).
    clear Heq. cbn in *.
    split; cbn; rewrite Forall4; unfold stable_line;
      split_and!; do 4 eexists; (split; [reflexivity|]); split_and!; congruence.
Qed.
End terminal_detector.

(** ** Claims about the terminal detector *)

(** C4. For every 4x4 grid [isGameOver] returns, and it returns [true] if and
    only if the grid has no empty cell and no two horizontally or vertically
    adjacent cells hold the same tile; it returns [false] as soon as one cell
    is empty. *)
Theorem isGameOver_iff (g : Grid) :
  is_grid g →
  ∃ b, isGameOver g = Some b
       ∧ (b = true ↔ no_empty g ∧ no_equal_neighbours g)
       ∧ ((∃ row col, cellAt g row col = Some None) → b = false).
Proof.
  intros Hg. pose proof (stuck_no_empty g Hg) as Hiff.
  destruct (isGameOver_stuck g Hg) as [[Hb Hstuck]|[Hb Hstuck]].
  - exists true. split_and!; [done|tauto|].
    intros (row & col & Hempty). apply Hiff in Hstuck as [Hne _]. by apply Hne in Hempty.
  - exists false. split_and!; [done| |done].
    split; [done|]. intros H. by apply Hiff in H.
Qed.

Lemma isGameOver_iff_witness :
  ∃ b, isGameOver board_stuck = Some b
       ∧ (b = true ↔ no_empty board_stuck ∧ no_equal_neighbours board_stuck)
       ∧ ((∃ row col, cellAt board_stuck row col = Some None) → b = false).
Proof.
  apply (isGameOver_iff board_stuck).
  split; [reflexivity|repeat constructor].
Defined.

(** ** Stuck boards and moves *)

Section stuck_boards.
Implicit Types (g : Grid) (line : list Cell).

Lemma lineChanged_false line :
  lineChanged line = false → Line.newLine (processLine_spec line) = line.
Proof.
  unfold lineChanged. intros H. apply unchanged_newLine in H.
  by rewrite processLine_unfold in H.
Qed.

Lemma stable_unchanged (x y z w : Z) :
  x ≠ y → y ≠ z → z ≠ w → lineChanged [Some x; Some y; Some z; Some w] = false.
Proof.
  intros Hxy Hyz Hzw. unfold lineChanged. rewrite processLine_unfold.
  unfold processLine_spec.
  change (omap id [Some x; Some y; Some z; Some w]) with [x; y; z; w].
  rewrite !mergePass_step.
  rewrite (proj2 (Z.eqb_neq x y)), (proj2 (Z.eqb_neq y z)), (proj2 (Z.eqb_neq z w))
    by done.
  cbn. by rewrite bool_decide_eq_true_2.
Qed.

(** A stable line is left as it is when compacted towards either end. *)
Lemma stable_line_unchanged line :
  stable_line line → lineChanged line = false ∧ lineChanged (reverse line) = false.
Proof.
  intros (x & y & z & w & -> & Hxy & Hyz & Hzw). split.
  - by apply stable_unchanged.
  - apply (stable_unchanged w z y x); congruence.
Qed.

(** A line of four cells that stays as it is when compacted towards either
    end is empty or stable. *)
Lemma unchanged_both_ways (a b c e : Cell) :
  lineChanged [a; b; c; e] = false → lineChanged [e; c; b; a] = false →
  [a; b; c; e] = [None; None; None; None] ∨ stable_line [a; b; c; e].
Proof.
  intros H1%lineChanged_false H2%lineChanged_false.
  unfold processLine_spec in H1, H2.
  destruct a as [x|], b as [y|], c as [z|], e as [w|];
    cbn -[Z.eqb Z.mul Z.add] in H1, H2;
    repeat match type of H1 with
           | context [Z.eqb ?u ?v] => destruct (Z.eqb_spec u v)
           end;
    try discriminate H1;
    repeat match type of H2 with
           | context [Z.eqb ?u ?v] => destruct (Z.eqb_spec u v)
           end;
    try discriminate H2;
    first [by left | right; by exists x, y, z, w].
Qed.

Lemma existsb_false_Forall {A} (f : A → bool) (l : list A) :
  existsb f l = false ↔ Forall (λ x, f x = false) l.
Proof.
  induction l as [|x l IH]; cbn.
  - split; [constructor|done].
  - rewrite orb_false_iff, Forall_cons. tauto.
Qed.

Lemma stuck_lines_unchanged g d :
  is_grid g → stuck g → Forall (λ line, lineChanged line = false) (linesOf g d).
Proof.
  intros Hg. apply is_grid_cells in Hg
    as (a0&a1&a2&a3&b0&b1&b2&b3&c0&c1&c2&c3&d0&d1&d2&d3&->).
  intros [Hrows Hcols]. cbn in Hrows, Hcols. rewrite Forall4 in Hrows, Hcols.
  destruct Hrows as (R0%stable_line_unchanged & R1%stable_line_unchanged
                     & R2%stable_line_unchanged & R3%stable_line_unchanged).
  destruct Hcols as (C0%stable_line_unchanged & C1%stable_line_unchanged
                     & C2%stable_line_unchanged & C3%stable_line_unchanged).
  destruct d; cbn; rewrite Forall4; tauto.
Qed.

Ltac line_cases H :=
  destruct H as [[= -> -> -> ->]|H].

Ltac not_mixed H :=
  destruct H as [[=]|(? & ? & ? & ? & [=] & _)].

(** A board with a tile on which every line stays as it is, in the four
    directions, is stuck: a full row fills every column. *)
Lemma unchanged_lines_stuck g :
  is_grid g → has_tile g →
  (∀ d, Forall (λ line, lineChanged line = false) (linesOf g d)) → stuck g.
Proof.
  intros Hg. apply is_grid_cells in Hg
    as (a0&a1&a2&a3&b0&b1&b2&b3&c0&c1&c2&c3&d0&d1&d2&d3&->).
  intros Htile Hall.
  pose proof (Hall Left) as HL. pose proof (Hall Right) as HR.
  pose proof (Hall Up) as HU. pose proof (Hall Down) as HD. clear Hall.
  cbn in HL, HR, HU, HD. rewrite Forall4 in HL, HR, HU, HD.
  destruct HL as (L0 & L1 & L2 & L3). destruct HR as (R0 & R1 & R2 & R3).
  destruct HU as (U0 & U1 & U2 & U3). destruct HD as (D0 & D1 & D2 & D3).
  pose proof (unchanged_both_ways _ _ _ _ L0 R0) as Row0.
  pose proof (unchanged_both_ways _ _ _ _ L1 R1) as Row1.
  pose proof (unchanged_both_ways _ _ _ _ L2 R2) as Row2.
  pose proof (unchanged_both_ways _ _ _ _ L3 R3) as Row3.
  pose proof (unchanged_both_ways _ _ _ _ U0 D0) as Col0.
  pose proof (unchanged_both_ways _ _ _ _ U1 D1) as Col1.
  pose proof (unchanged_both_ways _ _ _ _ U2 D2) as Col2.
  pose proof (unchanged_both_ways _ _ _ _ U3 D3) as Col3.
  clear L0 L1 L2 L3 R0 R1 R2 R3 U0 U1 U2 U3 D0 D1 D2 D3.
  line_cases Row0; line_cases Row1; line_cases Row2; line_cases Row3;
    try use_stable Row0; try use_stable Row1;
    try use_stable Row2; try use_stable Row3;
    try (not_mixed Col0; fail).
  - exfalso. destruct Htile as (row & col & v & Hv).
    index_cases row; index_cases col; discriminate Hv.
  - destruct Col0 as [[=]|Col0], Col1 as [[=]|Col1],
      Col2 as [[=]|Col2], Col3 as [[=]|Col3].
    split; cbn; rewrite Forall4; [|done].
    unfold stable_line. split_and!; do 4 eexists; by split_and!.
Qed.
End stuck_boards.

(** ** Claims about stuck boards *)

(** C3, as the specification states it: [isGameOver] is [true] exactly when
    no move changes the board.  The empty board refutes it: no move changes
    it, and [isGameOver] is [false] on it. *)
Lemma isGameOver_empty_board :
  is_grid createEmptyGrid
  ∧ isGameOver createEmptyGrid = Some false
  ∧ (∀ d, ∃ r, moveGrid createEmptyGrid d = Some r ∧ Move.moved r = false)
  ∧ ¬ (isGameOver createEmptyGrid = Some true
       ↔ ∀ d, ∃ r, moveGrid createEmptyGrid d = Some r ∧ Move.moved r = false).
Proof.
  assert (∀ d, ∃ r, moveGrid createEmptyGrid d = Some r ∧ Move.moved r = false)
    as Hmoves.
  { intros []; eexists; split; reflexivity. }
  split_and!.
  - split; [reflexivity|repeat constructor].
  - reflexivity.
  - exact Hmoves.
  - intros [_ H]. specialize (H Hmoves). discriminate H.
Qed.

(** C3, amended: for every 4x4 grid with at least one tile, [isGameOver] is
    [true] if and only if [moveGrid] reports [moved] false in each of the
    four directions. *)
Theorem isGameOver_no_move (g : Grid) :
  is_grid g → has_tile g →
  (isGameOver g = Some true
   ↔ ∀ d, ∃ r, moveGrid g d = Some r ∧ Move.moved r = false).
Proof.
  intros Hg Htile. split.
  - intros Hover d.
    destruct (isGameOver_stuck g Hg) as [[_ Hstuck]|[Hfalse _]]; [|congruence].
    destruct (moveGrid_total g d Hg) as (r & Hr & _ & _ & Hmoved & _).
    exists r. split; [done|]. rewrite Hmoved.
    apply existsb_false_Forall. by apply stuck_lines_unchanged.
  - intros Hmoves.
    destruct (isGameOver_stuck g Hg) as [[Htrue _]|[_ Hnot]]; [done|].
    destruct Hnot. apply unchanged_lines_stuck; [done..|].
    intros d. apply existsb_false_Forall.
    destruct (Hmoves d) as (r & Hr & Hfalse).
    destruct (moveGrid_total g d Hg) as (r' & Hr' & _ & _ & Hmoved & _).
    simplify_eq. by rewrite <- Hmoved.
Qed.

Lemma isGameOver_no_move_witness :
  isGameOver board_stuck = Some true
  ↔ ∀ d, ∃ r, moveGrid board_stuck d = Some r ∧ Move.moved r = false.
Proof.
  apply (isGameOver_no_move board_stuck).
  - split; [reflexivity|repeat constructor].
  - exists 0, 0, 2%Z. reflexivity.
Defined.

(** ** The turn controller *)

Section turn_controller.
Implicit Types (gs : GameState) (g : Grid) (d : Direction).

Ltac won_check c :=
  destruct (strict_eq (Some c) _); cbn -[strict_eq]; [by eexists|].

Lemma hasWon_total g : is_grid g → ∃ b, hasWon g = Some b.
Proof.
  intros Hg. apply is_grid_cells in Hg
    as (a0&a1&a2&a3&b0&b1&b2&b3&c0&c1&c2&c3&d0&d1&d2&d3&->).
  unfold hasWon. cbn -[strict_eq].
  won_check a0. won_check a1. won_check a2. won_check a3.
  won_check b0. won_check b1. won_check b2. won_check b3.
  won_check c0. won_check c1. won_check c2. won_check c3.
  won_check d0. won_check d1. won_check d2. won_check d3.
  by eexists.
Qed.

Lemma isGameOver_total g : is_grid g → ∃ b, isGameOver g = Some b.
Proof.
  intros Hg. destruct (isGameOver_stuck g Hg) as [[? _]|[? _]]; by eexists.
Qed.

(** A call of [move] that returns either left the state as it was or
    replaced it after a transform that moved and a spawn. *)
Lemma move_inv gs d uPos uVal gs' :
  move gs d uPos uVal = Some gs' →
  gs' = gs
  ∨ ∃ r over w,
      gameOver gs = false
      ∧ moveGrid (grid gs) d = Some r ∧ Move.moved r = true
      ∧ addRandomTile (Move.newGrid r) uPos uVal = Some (grid gs')
      ∧ score gs' = (score gs + Move.scoreGained r)%Z
      ∧ isGameOver (grid gs') = Some over ∧ gameOver gs' = over
      ∧ (if won gs then Some true else hasWon (grid gs')) = Some w ∧ won gs' = w.
Proof.
  unfold move. destruct (gameOver gs) eqn:Hover; [intros [= <-]; by left|].
  destruct (moveGrid (grid gs) d) as [r|] eqn:Hr; [|done]. cbn [mbind option_bind].
  destruct (Move.moved r) eqn:Hmoved; cbn [negb]; [|intros [= <-]; by left].
  destruct (addRandomTile _ _ _) as [g'|] eqn:Hadd; [|done]. cbn [mbind option_bind].
  destruct (isGameOver g') as [over|] eqn:Hover'; [|done]. cbn [mbind option_bind].
  destruct (if won gs then Some true else hasWon g') as [w|] eqn:Hwon; [|done].
  cbn [mbind option_bind]. intros [= <-]. right. exists r, over, w. done.
Qed.

Lemma move_total gs d uPos uVal :
  is_grid (grid gs) → valid_draw uPos → ∃ gs', move gs d uPos uVal = Some gs'.
Proof.
  intros Hg Hu. unfold move. destruct (gameOver gs); [by eexists|].
  destruct (moveGrid_total _ d Hg) as (r & -> & Hg' & _). cbn [mbind option_bind].
  destruct (Move.moved r); cbn [negb]; [|by eexists].
  destruct (addRandomTile_total _ uPos uVal Hg' Hu) as [g' Hadd]. rewrite Hadd.
  cbn [mbind option_bind].
  pose proof (spawned_is_grid _ _ Hg'
                (addRandomTile_spawned _ _ _ _ (proj1 Hg') Hadd)) as Hg''.
  destruct (isGameOver_total _ Hg'') as [over ->].
  destruct (hasWon_total _ Hg'') as [w Hw]. cbn [mbind option_bind].
  destruct (won gs); [|rewrite Hw]; by eexists.
Qed.

Lemma createEmptyGrid_ok : is_grid createEmptyGrid ∧ tiles_ok createEmptyGrid.
Proof. split; [split; [done|]|]; repeat constructor. Qed.

Lemma addRandomTile_ok g uPos uVal g' :
  is_grid g → tiles_ok g → addRandomTile g uPos uVal = Some g' →
  is_grid g' ∧ tiles_ok g'.
Proof.
  intros Hg Hok Hadd.
  pose proof (addRandomTile_spawned _ _ _ _ (proj1 Hg) Hadd) as Hsp.
  split; [by eapply spawned_is_grid|by eapply spawned_tiles_ok].
Qed.

Lemma initializeGame_ok draws gs :
  initializeGame draws = Some gs → is_grid (grid gs) ∧ tiles_ok (grid gs).
Proof.
  unfold initializeGame. cbn [INITIAL_TILES seq for_each].
  destruct (addRandomTile createEmptyGrid _ _) as [g1|] eqn:H1; [|done].
  cbn [mbind option_bind].
  destruct (addRandomTile g1 _ _) as [g2|] eqn:H2; [|done].
  cbn. intros [= <-]. cbn [grid].
  destruct createEmptyGrid_ok as [Hg0 Hok0].
  destruct (addRandomTile_ok _ _ _ _ Hg0 Hok0 H1) as [Hg1 Hok1].
  by apply (addRandomTile_ok _ _ _ _ Hg1 Hok1 H2).
Qed.

Lemma move_ok gs d uPos uVal gs' :
  is_grid (grid gs) → tiles_ok (grid gs) → move gs d uPos uVal = Some gs' →
  is_grid (grid gs') ∧ tiles_ok (grid gs').
Proof.
  intros Hg Hok [->|(r & over & w & _ & Hr & _ & Hadd & _)]%move_inv; [done|].
  destruct (moveGrid_tiles_ok _ _ _ Hg Hok Hr) as [Hg' Hok'].
  by apply (addRandomTile_ok _ _ _ _ Hg' Hok' Hadd).
Qed.

Lemma tiles_ok_cellAt g row col v :
  tiles_ok g → cellAt g row col = Some (Some v) → is_pow2 v.
Proof.
  unfold tiles_ok, cellAt. rewrite Forall_lookup. intros Hok Hcell.
  destruct (g !! row) as [rw|] eqn:Hrow; [|done]. cbn in Hcell.
  specialize (Hok _ _ Hrow). rewrite Forall_lookup in Hok.
  by apply (Hok _ _ Hcell).
Qed.
End turn_controller.

(** ** Claims about the turn controller *)

(** C5. [move] leaves the game state as it is, grid, score and flags, when
    the state's [gameOver] is true and also when [moveGrid] reports [moved]
    false for the direction: no tile is spawned and no score is added. *)
Theorem move_noop (gs : GameState) (d : Direction) (uPos uVal : Q) :
  gameOver gs = true
  ∨ (∃ r, moveGrid (grid gs) d = Some r ∧ Move.moved r = false) →
  move gs d uPos uVal = Some gs.
Proof.
  unfold move. intros [->|(r & -> & Hmoved)]; [done|].
  destruct (gameOver gs); [done|]. cbn [mbind option_bind]. by rewrite Hmoved.
Qed.

Lemma move_noop_witness :
  move state_over Left (1 # 2) (1 # 2) = Some state_over
  ∧ move state_packed Left (1 # 2) (1 # 2) = Some state_packed.
Proof.
  split.
  - apply (move_noop state_over Left). left. reflexivity.
  - apply (move_noop state_packed Left). right. eexists. split; reflexivity.
Defined.

(** C6. The [won] flag is monotonic: from a state whose [won] is true every
    state that [move] produces has [won] true, and [move] does produce one on
    a 4x4 grid. *)
Theorem won_monotonic (gs : GameState) (d : Direction) (uPos uVal : Q) :
  won gs = true →
  (∀ gs', move gs d uPos uVal = Some gs' → won gs' = true)
  ∧ (is_grid (grid gs) → valid_draw uPos → ∃ gs', move gs d uPos uVal = Some gs').
Proof.
  intros Hwon. split; [|by apply move_total].
  intros gs' [->|(r & over & w & _ & _ & _ & _ & _ & _ & _ & Hw & <-)]%move_inv;
    [done|].
  rewrite Hwon in Hw. by injection Hw as <-.
Qed.

Lemma won_monotonic_witness :
  (∀ gs', move state_won Left (1 # 2) (1 # 2) = Some gs' → won gs' = true)
  ∧ (is_grid (grid state_won) → valid_draw (1 # 2)
     → ∃ gs', move state_won Left (1 # 2) (1 # 2) = Some gs').
Proof.
  apply (won_monotonic state_won Left (1 # 2) (1 # 2)). reflexivity.
Defined.

(** The flag stays although the tile is gone: two 2048 tiles merge into 4096
    and no cell of the new grid holds 2048. *)
Example won_after_merge :
  ∃ gs', move state_won Left (1 # 2) (1 # 2) = Some gs'
         ∧ hasWon (grid gs') = Some false ∧ won gs' = true.
Proof. eexists. split; [reflexivity|]. split; reflexivity. Qed.

(** C7. In every state reachable from [initializeGame] by [move] and
    [reset], whatever the draws, the grid is 4x4 and every tile on it is a
    power of two greater than or equal to 2. *)
Theorem reachable_invariant (gs : GameState) :
  reachable gs →
  is_grid (grid gs)
  ∧ ∀ row col v, cellAt (grid gs) row col = Some (Some v) → is_pow2 v.
Proof.
  intros Hreach.
  cut (is_grid (grid gs) ∧ tiles_ok (grid gs)).
  { intros [Hg Hok]. split; [done|]. intros row col v. by apply tiles_ok_cellAt. }
  induction Hreach as [draws gs Hinit|gs d uPos uVal gs' _ [Hg Hok] Hmove
                      |gs draws gs' _ _ Hreset].
  - by eapply initializeGame_ok.
  - by eapply move_ok.
  - by eapply initializeGame_ok.
Qed.

Lemma reachable_invariant_witness :
  is_grid (grid state_start)
  ∧ ∀ row col v, cellAt (grid state_start) row col = Some (Some v) → is_pow2 v.
Proof.
  apply (reachable_invariant state_start).
  apply (reachable_init (λ _, (0 # 1, 0 # 1))). reflexivity.
Defined.


(** * Further properties *)

(** ** The line engine *)

Section line_engine_more.
Implicit Types (l : list Z) (line : list Cell).

Lemma mergePass_fixed l : mergePass l = l ↔ no_adjacent_equal l.
Proof.
  induction l as [| x | x y l IH1 IH2] using pair_ind; [done..|].
  rewrite mergePass_step. change (no_adjacent_equal (x :: y :: l))
    with (x ≠ y ∧ no_adjacent_equal (y :: l)).
  destruct (Z.eqb_spec x y) as [->|Hne].
  - split; [|tauto]. intros H. apply (f_equal length) in H. cbn in H.
    pose proof (mergePass_length l). lia.
  - rewrite <- IH2. split; [intros [= ?]; done|intros [_ ->]; done].
Qed.

Lemma mergePass_same_length l : length (mergePass l) = length l → mergePass l = l.
Proof.
  induction l as [| x | x y l IH1 IH2] using pair_ind; [done..|].
  rewrite mergePass_step. destruct (x =? y)%Z; cbn [length].
  - pose proof (mergePass_length l). lia.
  - intros H. f_equal. apply IH2. cbn [length]. lia.
Qed.

Lemma mergePass_nonempty l : l ≠ [] → mergePass l ≠ [].
Proof. destruct l as [|x [|y l]]; [done..|]. rewrite mergePass_step. by destruct (x =? y)%Z. Qed.

Lemma lineTiles_app line1 line2 : lineTiles (line1 ++ line2) = lineTiles line1 + lineTiles line2.
Proof. induction line1 as [|[v|] line1 IH]; cbn; lia. Qed.

Lemma lineTiles_Some l : lineTiles (Some <$> l) = length l.
Proof. induction l as [|x l IH]; cbn; lia. Qed.

Lemma lineTiles_replicate_None n : lineTiles (replicate n None) = 0.
Proof. induction n; cbn; lia. Qed.

Lemma lineTiles_newLine line :
  lineTiles (Line.newLine (processLine line)) = length (mergePass (omap id line)).
Proof.
  rewrite processLine_unfold. cbn.
  by rewrite lineTiles_app, lineTiles_Some, lineTiles_replicate_None, Nat.add_0_r.
Qed.

(** A line without an empty cell is its dense sequence. *)
Lemma full_line_dense line : lineTiles line = length line → line = Some <$> omap id line.
Proof.
  induction line as [|[v|] line IH]; cbn; [done| |].
  - intros H. f_equal. apply IH. lia.
  - pose proof (lineTiles_length line). lia.
Qed.

Lemma positive_dense line : positive_tiles line → Forall (λ v, (0 < v)%Z) (omap id line).
Proof. induction 1 as [|[v|] line Hc _ IH]; cbn; [constructor|by constructor|done]. Qed.

Lemma tile_ok_positive line : Forall tile_ok line → positive_tiles line.
Proof.
  intros H. eapply Forall_impl; [exact H|]. intros [v|]; cbn; [|done].
  intros (k & Hk & ->). by apply Z.pow_pos_nonneg; lia.
Qed.

Lemma mergeScore_bounds l :
  Forall (λ v, (0 < v)%Z) l → (0 ≤ mergeScore l ≤ sumZ l)%Z.
Proof.
  induction l as [| x | x y l IH1 IH2] using pair_ind.
  - cbn. lia.
  - intros [Hx _]%Forall_cons. cbn. lia.
  - intros H. rewrite mergeScore_step. cbn [sumZ].
    apply Forall_cons in H as [Hx H]. pose proof H as Hyl.
    apply Forall_cons in H as [Hy Hl].
    specialize (IH1 Hl). specialize (IH2 Hyl). cbn [sumZ] in IH2.
    destruct (Z.eqb_spec x y) as [->|_]; lia.
Qed.

Lemma mergeScore_zero l :
  Forall (λ v, (0 < v)%Z) l →
  mergeScore l = 0%Z ↔ length (mergePass l) = length l.
Proof.
  intros Hpos. split; [|apply mergeScore_no_merge]. revert Hpos.
  induction l as [| x | x y l IH1 IH2] using pair_ind; [done..|].
  intros H. rewrite mergeScore_step, mergePass_step.
  apply Forall_cons in H as [Hx H]. pose proof H as Hyl.
  apply Forall_cons in H as [Hy Hl].
  pose proof (mergeScore_bounds l Hl).
  destruct (x =? y)%Z; cbn [length]; [lia|].
  intros Hz. by rewrite (IH2 Hyl Hz).
Qed.
End line_engine_more.

(** X1. [processLine] reports a line unchanged exactly when its tiles are
    packed at the front, no two neighbouring tiles are equal, and the empty
    cells fill it up to four cells. *)
Theorem processLine_unchanged_iff (line : list Cell) :
  Line.changed (processLine line) = false
  ↔ ∃ l : list Z,
      line = (Some <$> l) ++ replicate (SIZE - length l) None
      ∧ no_adjacent_equal l.
Proof.
  split.
  - intros H. pose proof (newLine_dense line) as Hd.
    pose proof (unchanged_newLine _ H) as Hsame. rewrite Hsame in Hd.
    exists (omap id line). split; [|by apply mergePass_fixed].
    rewrite processLine_unfold in Hsame. cbn in Hsame.
    by rewrite <- Hd, length_fmap in Hsame.
  - intros (l & -> & Hl%mergePass_fixed).
    rewrite processLine_unfold. cbn.
    rewrite omap_id_app, omap_id_Some, omap_id_replicate_None, app_nil_r, Hl.
    rewrite length_fmap. by rewrite bool_decide_eq_true_2.
Qed.

Lemma newLine_tiles_le (line : list Cell) :
  lineTiles (Line.newLine (processLine line)) ≤ lineTiles line.
Proof.
  rewrite lineTiles_newLine, <- omap_id_length. apply mergePass_length.
Qed.

Lemma newLine_tiles_pos (line : list Cell) :
  0 < lineTiles line → 0 < lineTiles (Line.newLine (processLine line)).
Proof.
  rewrite lineTiles_newLine, <- omap_id_length.
  destruct (omap id line) as [|x l]; [cbn; lia|]. intros _.
  pose proof (mergePass_nonempty (x :: l) ltac:(done)) as Hne.
  destruct (mergePass (x :: l)); [done|]. cbn. lia.
Qed.

(** A line of four cells that changes ends with an empty cell. *)
Lemma changed_frees_cell (line : list Cell) :
  length line = SIZE → Line.changed (processLine line) = true →
  lineTiles (Line.newLine (processLine line)) < SIZE.
Proof.
  intros Hlen Hch. rewrite lineTiles_newLine.
  pose proof (mergePass_length (omap id line)) as Hle.
  rewrite omap_id_length in Hle. pose proof (lineTiles_length line) as Hfit.
  destruct (decide (length (mergePass (omap id line)) < SIZE)) as [|Hfull]; [done|].
  exfalso. assert (lineTiles line = length line) as Hall by lia.
  assert (length (mergePass (omap id line)) = length (omap id line)) as Hsame
    by (rewrite omap_id_length; lia).
  apply mergePass_same_length in Hsame.
  rewrite processLine_unfold in Hch. cbn in Hch.
  rewrite Hsame, length_fmap, omap_id_length, Hall, Hlen, Nat.sub_diag in Hch.
  cbn in Hch. rewrite app_nil_r, <- (full_line_dense _ Hall) in Hch.
  by rewrite bool_decide_eq_true_2 in Hch.
Qed.

Lemma newLine_score_bounds (line : list Cell) :
  positive_tiles line → (0 ≤ Line.scoreGained (processLine line) ≤ lineSum line)%Z.
Proof.
  intros Hpos%positive_dense. rewrite <- omap_id_sum, processLine_unfold. cbn.
  by apply mergeScore_bounds.
Qed.

Lemma newLine_score_zero (line : list Cell) :
  positive_tiles line →
  Line.scoreGained (processLine line) = 0%Z
  ↔ lineTiles (Line.newLine (processLine line)) = lineTiles line.
Proof.
  intros Hpos%positive_dense. rewrite lineTiles_newLine, <- omap_id_length.
  rewrite processLine_unfold. cbn. by apply mergeScore_zero.
Qed.

(** X2. [processLine] never adds a tile, and it keeps at least one when the
    line has one; on a line of four cells that it reports changed, the new
    line has an empty cell. *)
Theorem processLine_tiles (line : list Cell) :
  lineTiles (Line.newLine (processLine line)) ≤ lineTiles line
  ∧ (0 < lineTiles line → 0 < lineTiles (Line.newLine (processLine line)))
  ∧ (length line = SIZE → Line.changed (processLine line) = true →
     lineTiles (Line.newLine (processLine line)) < SIZE).
Proof.
  split_and!.
  - apply newLine_tiles_le.
  - apply newLine_tiles_pos.
  - apply changed_frees_cell.
Qed.

Lemma processLine_tiles_witness :
  lineTiles (Line.newLine (processLine [Some 2; Some 2; Some 4; Some 8]%Z)) < SIZE.
Proof.
  apply (proj2 (proj2 (processLine_tiles [Some 2; Some 2; Some 4; Some 8]%Z)));
    reflexivity.
Defined.

(** X3. On a line of positive tiles the score of [processLine] lies between
    0 and the sum of the line, and it is 0 exactly when no tile disappears. *)
Theorem processLine_score (line : list Cell) :
  positive_tiles line →
  (0 ≤ Line.scoreGained (processLine line) ≤ lineSum line)%Z
  ∧ (Line.scoreGained (processLine line) = 0%Z
     ↔ lineTiles (Line.newLine (processLine line)) = lineTiles line).
Proof.
  intros Hpos. split.
  - by apply newLine_score_bounds.
  - by apply newLine_score_zero.
Qed.

Lemma processLine_score_witness :
  (0 ≤ Line.scoreGained (processLine [Some 2; Some 2; None; Some 4]%Z)
   ≤ lineSum [Some 2; Some 2; None; Some 4]%Z)%Z
  ∧ (Line.scoreGained (processLine [Some 2; Some 2; None; Some 4]%Z) = 0%Z
     ↔ lineTiles (Line.newLine (processLine [Some 2; Some 2; None; Some 4]%Z))
       = lineTiles [Some 2; Some 2; None; Some 4]%Z).
Proof.
  apply (processLine_score [Some 2; Some 2; None; Some 4]%Z).
  repeat constructor.
Defined.

(** ** The grid transform *)

Section grid_transform_more.
Implicit Types (g : Grid) (d : Direction) (ls : list (list Cell)).

Ltac grid_cells Hg :=
  apply is_grid_cells in Hg as (?&?&?&?&?&?&?&?&?&?&?&?&?&?&?&?&->).

Lemma lines_shape g d :
  is_grid g → length (linesOf g d) = SIZE ∧ Forall (λ l, length l = SIZE) (linesOf g d).
Proof. intros Hg. grid_cells Hg. destruct d; cbn; split; by repeat constructor. Qed.

Lemma linesOf_inj g g' d :
  is_grid g → is_grid g' → linesOf g d = linesOf g' d → g = g'.
Proof.
  intros Hg Hg'. grid_cells Hg. grid_cells Hg'.
  destruct d; cbn; intros [=]; by subst.
Qed.

Lemma gridTiles_lines g d :
  is_grid g → gridTiles g = sum_list (lineTiles <$> linesOf g d).
Proof. intros Hg. grid_cells Hg. destruct d; cbn; lia. Qed.

Lemma positive_lines g d :
  is_grid g → Forall positive_tiles g ↔ Forall positive_tiles (linesOf g d).
Proof.
  intros Hg. grid_cells Hg. unfold positive_tiles.
  destruct d; cbn; rewrite !Forall4; tauto.
Qed.

Lemma fmap_fixed {A} (f : A → A) (l : list A) : f <$> l = l ↔ Forall (λ x, f x = x) l.
Proof.
  induction l as [|x l IH]; cbn; [split; [constructor|done]|].
  rewrite Forall_cons, <- IH. split; [intros [= ? ?]; done|intros [-> ->]; done].
Qed.

Lemma lineOut_fixed (line : list Cell) : lineOut line = line ↔ lineChanged line = false.
Proof.
  unfold lineOut, lineChanged. rewrite processLine_unfold. cbn.
  rewrite negb_false_iff, bool_decide_eq_true. done.
Qed.

(** The board symmetries turn the lines of one direction into those of
    another. *)
Lemma mirror_lines g :
  is_grid g → is_grid (mirror g) ∧ linesOf (mirror g) Right = linesOf g Left.
Proof. intros Hg. grid_cells Hg. split; [apply is_grid_of_cells|done]. Qed.

Lemma flip_lines g :
  is_grid g → is_grid (flip g) ∧ linesOf (flip g) Down = linesOf g Up.
Proof. intros Hg. grid_cells Hg. split; [apply is_grid_of_cells|done]. Qed.

Lemma transpose_lines g :
  is_grid g → is_grid (transpose g) ∧ linesOf (transpose g) Up = linesOf g Left.
Proof. intros Hg. grid_cells Hg. split; [apply is_grid_of_cells|done]. Qed.

(** Two grids with the same lines, each in its direction, are moved alike. *)
Lemma moveGrid_same_lines g d g' d' (f : Grid → Grid) :
  is_grid g → is_grid g' → linesOf g' d' = linesOf g d →
  (∀ x, is_grid x → is_grid (f x) ∧ linesOf (f x) d' = linesOf x d) →
  moveGrid g' d' = with_grid f <$> moveGrid g d.
Proof.
  intros Hg Hg' Hlines Hf.
  destruct (moveGrid_total g d Hg) as (r & -> & Hgr & Hl & Hm & Hs).
  destruct (moveGrid_total g' d' Hg') as (r' & -> & Hgr' & Hl' & Hm' & Hs').
  cbn. f_equal. destruct r' as [ng' mv' sc']. unfold with_grid. cbn in *.
  rewrite Hlines in Hl', Hm', Hs'. f_equal; [|congruence..].
  destruct (Hf _ Hgr) as [Hgf Hlf].
  apply (linesOf_inj _ _ d'); [done..|]. congruence.
Qed.

Lemma sum_tiles_le ls :
  sum_list (lineTiles <$> (lineOut <$> ls)) ≤ sum_list (lineTiles <$> ls).
Proof.
  induction ls as [|line ls IH]; cbn; [done|].
  pose proof (newLine_tiles_le line). unfold lineOut at 1. lia.
Qed.

Lemma sum_tiles_pos ls :
  0 < sum_list (lineTiles <$> ls) → 0 < sum_list (lineTiles <$> (lineOut <$> ls)).
Proof.
  induction ls as [|line ls IH]; cbn; [done|].
  pose proof (newLine_tiles_pos line). unfold lineOut at 1. lia.
Qed.

Lemma sum_tiles_changed ls :
  Forall (λ l, length l = SIZE) ls → existsb lineChanged ls = true →
  sum_list (lineTiles <$> (lineOut <$> ls)) < SIZE * length ls.
Proof.
  induction 1 as [|line ls Hlen Hrest IH]; cbn; [done|].
  pose proof (newLine_tiles_le line) as Hle.
  pose proof (lineTiles_length line) as Hfit.
  pose proof (sum_tiles_le ls) as Hsum.
  assert (sum_list (lineTiles <$> ls) ≤ SIZE * length ls) as Hbound.
  { clear -Hrest. induction Hrest as [|l ls Hl _ IHl]; cbn; [lia|].
    pose proof (lineTiles_length l). unfold SIZE in *. lia. }
  unfold lineOut at 1. intros [Hch|Hch]%orb_true_iff.
  - pose proof (changed_frees_cell line Hlen Hch). unfold SIZE in *. lia.
  - specialize (IH Hch). unfold SIZE in *. lia.
Qed.

Lemma sum_score_bounds ls :
  Forall positive_tiles ls →
  (0 ≤ sumZ (lineScore <$> ls) ≤ sumZ (lineSum <$> ls))%Z
  ∧ (sumZ (lineScore <$> ls) = 0%Z
     ↔ sum_list (lineTiles <$> (lineOut <$> ls)) = sum_list (lineTiles <$> ls)).
Proof.
  induction 1 as [|line ls Hpos _ [IHb IHz]]; cbn; [by split|].
  pose proof (newLine_score_bounds line Hpos) as Hb.
  pose proof (newLine_score_zero line Hpos) as Hz.
  pose proof (newLine_tiles_le line) as Hle.
  pose proof (sum_tiles_le ls) as Hsum.
  change (lineScore line) with (Line.scoreGained (processLine line)).
  change (lineOut line) with (Line.newLine (processLine line)).
  split; [lia|].
  split.
  - intros H0. assert (Line.scoreGained (processLine line) = 0%Z) as H1 by lia.
    assert (sumZ (lineScore <$> ls) = 0%Z) as H2 by lia.
    apply Hz in H1. apply IHz in H2. lia.
  - intros Heq.
    assert (lineTiles (Line.newLine (processLine line)) = lineTiles line) as H1 by lia.
    assert (sum_list (lineTiles <$> (lineOut <$> ls)) = sum_list (lineTiles <$> ls))
      as H2 by lia.
    apply Hz in H1. apply IHz in H2. lia.
Qed.
End grid_transform_more.

(** X4. On a 4x4 grid [moveGrid] reports [moved] exactly when the grid it
    returns differs from the grid it was given. *)
Theorem moveGrid_moved_iff (g : Grid) (d : Direction) :
  is_grid g →
  ∃ r, moveGrid g d = Some r ∧ (Move.moved r = false ↔ Move.newGrid r = g).
Proof.
  intros Hg. destruct (moveGrid_total g d Hg) as (r & Hr & Hgr & Hlines & Hmoved & _).
  exists r. split; [done|]. rewrite Hmoved, existsb_false_Forall. split.
  - intros Hunch. apply (linesOf_inj _ _ d); [done..|]. rewrite Hlines.
    apply fmap_fixed. eapply Forall_impl; [exact Hunch|].
    intros line. apply lineOut_fixed.
  - intros Hsame. rewrite Hsame in Hlines. symmetry in Hlines.
    apply fmap_fixed in Hlines. eapply Forall_impl; [exact Hlines|].
    intros line. apply lineOut_fixed.
Qed.

Lemma moveGrid_moved_iff_witness :
  ∃ r, moveGrid board_stuck Up = Some r
       ∧ (Move.moved r = false ↔ Move.newGrid r = board_stuck).
Proof.
  apply (moveGrid_moved_iff board_stuck Up).
  split; [reflexivity|repeat constructor].
Defined.

(** X5. The four directions are one line engine up to a symmetry of the
    board: moving the mirrored board right is the mirror of moving the board
    left, moving the board turned upside down down is the upside-down of
    moving it up, and moving the transposed board up is the transpose of
    moving the board left; [moved] and [scoreGained] are the same. *)
Theorem moveGrid_symmetry (g : Grid) :
  is_grid g →
  moveGrid (mirror g) Right = with_grid mirror <$> moveGrid g Left
  ∧ moveGrid (flip g) Down = with_grid flip <$> moveGrid g Up
  ∧ moveGrid (transpose g) Up = with_grid transpose <$> moveGrid g Left.
Proof.
  intros Hg. split_and!.
  - destruct (mirror_lines g Hg) as [Hm Hl].
    by apply moveGrid_same_lines; [| | |apply mirror_lines].
  - destruct (flip_lines g Hg) as [Hm Hl].
    by apply moveGrid_same_lines; [| | |apply flip_lines].
  - destruct (transpose_lines g Hg) as [Hm Hl].
    by apply moveGrid_same_lines; [| | |apply transpose_lines].
Qed.

Lemma moveGrid_symmetry_witness :
  moveGrid (mirror board_mixed) Right = with_grid mirror <$> moveGrid board_mixed Left
  ∧ moveGrid (flip board_mixed) Down = with_grid flip <$> moveGrid board_mixed Up
  ∧ moveGrid (transpose board_mixed) Up
    = with_grid transpose <$> moveGrid board_mixed Left.
Proof.
  apply (moveGrid_symmetry board_mixed).
  split; [reflexivity|repeat constructor].
Defined.

(** X6. On a 4x4 grid [moveGrid] never adds a tile and never removes the
    last one, and when it reports [moved] the grid it returns has an empty
    cell. *)
Theorem moveGrid_tiles (g : Grid) (d : Direction) :
  is_grid g →
  ∃ r, moveGrid g d = Some r
       ∧ gridTiles (Move.newGrid r) ≤ gridTiles g
       ∧ (0 < gridTiles g → 0 < gridTiles (Move.newGrid r))
       ∧ (Move.moved r = true → gridTiles (Move.newGrid r) < SIZE * SIZE).
Proof.
  intros Hg. destruct (moveGrid_total g d Hg) as (r & Hr & Hgr & Hlines & Hmoved & _).
  exists r. split; [done|].
  rewrite (gridTiles_lines _ d Hgr), (gridTiles_lines _ d Hg), Hlines, Hmoved.
  destruct (lines_shape g d Hg) as [Hn Hlen].
  split_and!.
  - apply sum_tiles_le.
  - apply sum_tiles_pos.
  - intros Hch. pose proof (sum_tiles_changed _ Hlen Hch) as Hlt.
    by rewrite Hn in Hlt.
Qed.

Lemma moveGrid_tiles_witness :
  ∃ r, moveGrid board_mixed Left = Some r
       ∧ gridTiles (Move.newGrid r) ≤ gridTiles board_mixed
       ∧ (0 < gridTiles board_mixed → 0 < gridTiles (Move.newGrid r))
       ∧ (Move.moved r = true → gridTiles (Move.newGrid r) < SIZE * SIZE).
Proof.
  apply (moveGrid_tiles board_mixed Left).
  split; [reflexivity|repeat constructor].
Defined.

(** X7. On a 4x4 grid of positive tiles the score of [moveGrid] lies between
    0 and the sum of the board, and it is 0 exactly when the move keeps the
    number of tiles. *)
Theorem moveGrid_score (g : Grid) (d : Direction) :
  is_grid g → Forall positive_tiles g →
  ∃ r, moveGrid g d = Some r
       ∧ (0 ≤ Move.scoreGained r ≤ gridSum g)%Z
       ∧ (Move.scoreGained r = 0%Z ↔ gridTiles (Move.newGrid r) = gridTiles g).
Proof.
  intros Hg Hpos.
  destruct (moveGrid_total g d Hg) as (r & Hr & Hgr & Hlines & _ & Hscore).
  exists r. split; [done|].
  rewrite (gridTiles_lines _ d Hgr), (gridTiles_lines _ d Hg), Hlines, Hscore.
  rewrite (gridSum_lines _ d Hg).
  apply sum_score_bounds. by apply positive_lines.
Qed.

Lemma moveGrid_score_witness :
  ∃ r, moveGrid board_mixed Down = Some r
       ∧ (0 ≤ Move.scoreGained r ≤ gridSum board_mixed)%Z
       ∧ (Move.scoreGained r = 0%Z
          ↔ gridTiles (Move.newGrid r) = gridTiles board_mixed).
Proof.
  apply (moveGrid_score board_mixed Down).
  - split; [reflexivity|repeat constructor].
  - repeat constructor.
Defined.

(** ** The empty cells and the tile spawner *)

Section spawner_more.
Implicit Types (g : Grid) (rw : list Cell) (p : nat * nat).

Lemma getEmptyCells_filter_ge g :
  SIZE ≤ length g → getEmptyCells g = Some (filter (emptyAt g) positions).
Proof.
  intros Hlen. unfold getEmptyCells. rewrite getEmptyCells_rows; [done|].
  apply Forall_forall. intros row Hrow%elem_of_seq.
  apply lookup_lt_is_Some. lia.
Qed.

(** The outer loop throws at the first missing row. *)
Lemma getEmptyCells_short g : length g < SIZE → getEmptyCells g = None.
Proof.
  intros Hlen.
  destruct g as [|r0 [|r1 [|r2 [|r3 g]]]]; [reflexivity..|].
  cbn in Hlen. unfold SIZE in Hlen. lia.
Qed.

Lemma positions_rows :
  positions = rowPositions 0 ++ rowPositions 1 ++ rowPositions 2 ++ rowPositions 3.
Proof. reflexivity. Qed.

Lemma NoDup_positions : NoDup positions.
Proof. compute_done. Qed.

Lemma positions_sorted : StronglySorted rowMajor_lt positions.
Proof.
  unfold rowMajor_lt.
  repeat (constructor; [|repeat (constructor; [cbn; lia|]); constructor]).
  constructor.
Qed.

Lemma filter_sorted {A} (R : A → A → Prop) (P : A → Prop) `{∀ x, Decision (P x)}
    (l : list A) :
  StronglySorted R l → StronglySorted R (filter P l).
Proof.
  induction 1 as [|x l Hl IH Hx]; [constructor|].
  rewrite filter_cons. destruct (decide (P x)); [|done].
  constructor; [done|].
  apply Forall_forall. intros y [_ Hy]%list_elem_of_filter.
  rewrite Forall_forall in Hx. by apply Hx.
Qed.

(** The empty positions of a row of four cells and its tiles make four. *)
Lemma row_empties g row (a b c e : Cell) :
  g !! row = Some [a; b; c; e] →
  length (filter (emptyAt g) (rowPositions row)) + lineTiles [a; b; c; e] = SIZE.
Proof.
  intros Hrow. unfold rowPositions. cbn [SIZE seq fmap list_fmap].
  rewrite !filter_cons, filter_nil.
  destruct a, b, c, e; repeat case_decide;
    repeat match goal with
           | H : emptyAt _ _ |- _ =>
               unfold emptyAt, cellAt in H; cbn in H; rewrite Hrow in H; cbn in H
           | H : ¬ emptyAt _ _ |- _ =>
               unfold emptyAt, cellAt in H; cbn in H; rewrite Hrow in H; cbn in H
           end;
    simplify_eq; done.
Qed.

Lemma empties_and_tiles g :
  is_grid g → length (filter (emptyAt g) positions) + gridTiles g = SIZE * SIZE.
Proof.
  intros Hg. apply is_grid_cells in Hg
    as (a0&a1&a2&a3&b0&b1&b2&b3&c0&c1&c2&c3&d0&d1&d2&d3&->).
  set (g := [[a0; a1; a2; a3]; [b0; b1; b2; b3]; [c0; c1; c2; c3]; [d0; d1; d2; d3]]).
  rewrite positions_rows, !filter_app, !length_app.
  pose proof (row_empties g 0 a0 a1 a2 a3 eq_refl) as H0.
  pose proof (row_empties g 1 b0 b1 b2 b3 eq_refl) as H1.
  pose proof (row_empties g 2 c0 c1 c2 c3 eq_refl) as H2.
  pose proof (row_empties g 3 d0 d1 d2 d3 eq_refl) as H3.
  subst g. cbn [gridTiles]. unfold SIZE in *. lia.
Qed.

Lemma elem_of_empties g p :
  is_grid g → p ∈ filter (emptyAt g) positions ↔ emptyAt g p.
Proof.
  intros Hg. rewrite list_elem_of_filter. split; [tauto|].
  intros Hp. split; [done|]. by apply (emptyAt_positions g).
Qed.

(** A grid that is not full has an empty position to spawn on. *)
Lemma spawned_not_full g g' :
  is_grid g → gridTiles g < SIZE * SIZE → spawned g g' →
  ∃ row col rw v,
    g !! row = Some rw ∧ rw !! col = Some None ∧ (v = 2%Z ∨ v = 4%Z)
    ∧ g' = <[row := <[col := Some v]> rw]> g.
Proof.
  intros Hg Hroom [Hnone|row col rw v Hrow Hcol Hv].
  - pose proof (empties_and_tiles g Hg) as Hcount. rewrite Hnone in Hcount.
    cbn [length] in Hcount. unfold SIZE in *. lia.
  - by exists row, col, rw, v.
Qed.

Lemma gridSum_insert g row rw rw' :
  g !! row = Some rw →
  (gridSum (<[row := rw']> g) + lineSum rw = gridSum g + lineSum rw')%Z.
Proof.
  revert row. induction g as [|r g IH]; intros row H; [by destruct row|].
  destruct row as [|row]; cbn in H.
  - injection H as ->. cbn. lia.
  - change (<[S row := rw']> (r :: g)) with (r :: <[row := rw']> g).
    cbn [gridSum]. specialize (IH _ H). lia.
Qed.

Lemma lineSum_spawn rw col v :
  rw !! col = Some None → lineSum (<[col := Some v]> rw) = (lineSum rw + v)%Z.
Proof.
  revert col. induction rw as [|c rw IH]; intros col H; [by destruct col|].
  destruct col as [|col]; cbn in H.
  - injection H as ->. cbn. lia.
  - change (<[S col := Some v]> (c :: rw)) with (c :: <[col := Some v]> rw).
    cbn [lineSum]. rewrite (IH _ H). lia.
Qed.
End spawner_more.

(** X8. On a 4x4 grid [getEmptyCells] returns the empty positions and only
    them, each once, in row-major order; with the tiles they make up the 16
    cells of the board. *)
Theorem getEmptyCells_spec (g : Grid) :
  is_grid g →
  ∃ es, getEmptyCells g = Some es
        ∧ (∀ row col, (row, col) ∈ es ↔ cellAt g row col = Some None)
        ∧ NoDup es
        ∧ StronglySorted rowMajor_lt es
        ∧ length es + gridTiles g = SIZE * SIZE.
Proof.
  intros Hg. exists (filter (emptyAt g) positions). split_and!.
  - apply getEmptyCells_filter. by destruct Hg.
  - intros row col. by rewrite elem_of_empties.
  - apply NoDup_filter, NoDup_positions.
  - apply filter_sorted, positions_sorted.
  - by apply empties_and_tiles.
Qed.

Lemma getEmptyCells_spec_witness :
  ∃ es, getEmptyCells board_mixed = Some es
        ∧ (∀ row col, (row, col) ∈ es ↔ cellAt board_mixed row col = Some None)
        ∧ NoDup es
        ∧ StronglySorted rowMajor_lt es
        ∧ length es + gridTiles board_mixed = SIZE * SIZE.
Proof.
  apply (getEmptyCells_spec board_mixed).
  split; [reflexivity|repeat constructor].
Defined.

(** X9. [getEmptyCells] fails, as the source throws on a missing row, exactly
    when the grid has fewer than four rows; rows that are too short do not
    make it fail. *)
Theorem getEmptyCells_error (g : Grid) :
  getEmptyCells g = None ↔ length g < SIZE.
Proof.
  split; [|apply getEmptyCells_short].
  intros Hnone. destruct (decide (length g < SIZE)) as [|Hge]; [done|].
  rewrite getEmptyCells_filter_ge in Hnone by lia. discriminate Hnone.
Qed.

Section spawner_errors.
Implicit Types (g : Grid) (u : Q).

Lemma lookupZ_None {A} (l : list A) (i : Z) :
  (i < 0 ∨ Z.of_nat (length l) ≤ i)%Z → lookupZ l i = None.
Proof.
  intros Hi. unfold lookupZ. destruct (Z.ltb_spec i 0); [done|].
  apply lookup_ge_None. lia.
Qed.

(** A draw outside of the interval of [Math.random] gives an index outside
    of the list. *)
Lemma randomIndex_out u (n : nat) :
  0 < n → ¬ valid_draw u →
  (Qfloor (u * inject_Z (Z.of_nat n)) < 0
   ∨ Z.of_nat n ≤ Qfloor (u * inject_Z (Z.of_nat n)))%Z.
Proof.
  intros Hn Hu.
  assert (0 < inject_Z (Z.of_nat n))%Q as Hpos.
  { rewrite <- (Zlt_Qlt 0). lia. }
  destruct (Qlt_le_dec u 0) as [Hneg|Hnonneg].
  - left. rewrite Zlt_Qlt. eapply Qle_lt_trans; [apply Qfloor_le|].
    rewrite <- (Qmult_0_l (inject_Z (Z.of_nat n))).
    by apply Qmult_lt_compat_r.
  - right. assert (1 <= u)%Q as Hone.
    { apply Qnot_lt_le. intros Hlt. by apply Hu. }
    rewrite <- (Qfloor_Z (Z.of_nat n)) at 1. apply Qfloor_resp_le.
    rewrite <- (Qmult_1_l (inject_Z (Z.of_nat n))) at 1.
    apply Qmult_le_compat_r; [done|]. by apply Qlt_le_weak.
Qed.

Lemma has_empty_filter g :
  is_grid g → (∃ row col, cellAt g row col = Some None) →
  filter (emptyAt g) positions ≠ [].
Proof.
  intros Hg (row & col & Hempty) Hnil.
  assert ((row, col) ∈ filter (emptyAt g) positions) as Hin by by apply elem_of_empties.
  rewrite Hnil in Hin. by apply not_elem_of_nil in Hin.
Qed.

Lemma addRandomTile_invalid g uPos uVal :
  is_grid g → (∃ row col, cellAt g row col = Some None) → ¬ valid_draw uPos →
  addRandomTile g uPos uVal = None.
Proof.
  intros Hg Hempty Hu. unfold addRandomTile.
  rewrite (getEmptyCells_filter _ (proj1 Hg)). cbn [mbind option_bind].
  pose proof (has_empty_filter g Hg Hempty) as Hne.
  destruct (filter (emptyAt g) positions) as [|p es] eqn:Hes; [done|].
  cbn [length Nat.eqb].
  rewrite lookupZ_None; [done|].
  apply (randomIndex_out uPos (S (length es))); [lia|done].
Qed.

End spawner_errors.

(** X10. On a 4x4 grid with an empty cell [addRandomTile] fails exactly when
    the position draw lies outside the interval from 0 inclusive to 1
    exclusive, the interval of [Math.random]: the index then falls outside
    the list of empty cells. *)
Theorem addRandomTile_error (g : Grid) (uPos uVal : Q) :
  is_grid g → (∃ row col, cellAt g row col = Some None) →
  (addRandomTile g uPos uVal = None ↔ ¬ valid_draw uPos).
Proof.
  intros Hg Hempty. split.
  - intros Hnone Hu. destruct (addRandomTile_total g uPos uVal Hg Hu) as [g' Hg'].
    congruence.
  - by apply addRandomTile_invalid.
Qed.

Lemma addRandomTile_error_witness :
  addRandomTile board_mixed 1 (1 # 2) = None ↔ ¬ valid_draw 1.
Proof.
  apply (addRandomTile_error board_mixed 1 (1 # 2)).
  - split; [reflexivity|repeat constructor].
  - exists 1, 0. reflexivity.
Defined.



(** ** The win check and the initial state *)

Section win_and_start.
Implicit Types (g : Grid) (gs : GameState).

Ltac won_found row col :=
  exists true; split; [reflexivity|]; split; [intros _|done];
  match goal with
  | E : strict_eq _ _ = true |- _ =>
      apply bool_decide_eq_true in E; injection E as ->
  end;
  exists row, col; reflexivity.

Ltac won_step c row col :=
  destruct (strict_eq (Some c) _) eqn:?; cbn -[strict_eq]; [won_found row col|].

Lemma hasWon_cells (a0 a1 a2 a3 b0 b1 b2 b3 c0 c1 c2 c3 d0 d1 d2 d3 : Cell) :
  let g := [[a0; a1; a2; a3]; [b0; b1; b2; b3]; [c0; c1; c2; c3]; [d0; d1; d2; d3]] in
  ∃ b, hasWon g = Some b
       ∧ (b = true ↔ ∃ row col, cellAt g row col = Some (Some WINNING_TILE)).
Proof.
  intros g. subst g. unfold hasWon. cbn -[strict_eq].
  won_step a0 0 0. won_step a1 0 1. won_step a2 0 2. won_step a3 0 3.
  won_step b0 1 0. won_step b1 1 1. won_step b2 1 2. won_step b3 1 3.
  won_step c0 2 0. won_step c1 2 1. won_step c2 2 2. won_step c3 2 3.
  won_step d0 3 0. won_step d1 3 1. won_step d2 3 2. won_step d3 3 3.
  exists false. split; [reflexivity|]. split; [done|].
  intros (row & col & Hcell).
  index_cases row; index_cases col; cbn in Hcell; try discriminate Hcell;
    injection Hcell as ->;
    match goal with
    | E : strict_eq ?x ?x = false |- _ => rewrite strict_eq_refl in E; discriminate E
    end.
Qed.

Lemma fresh_cell_not_won g :
  Forall (Forall fresh_cell) g → ∀ row col, cellAt g row col ≠ Some (Some WINNING_TILE).
Proof.
  intros Hfresh row col Hcell. unfold cellAt in Hcell.
  destruct (g !! row) as [rw|] eqn:Hrow; [|done]. cbn in Hcell.
  rewrite Forall_lookup in Hfresh. specialize (Hfresh _ _ Hrow).
  rewrite Forall_lookup in Hfresh. specialize (Hfresh _ _ Hcell).
  by destruct Hfresh as [?|[?|?]].
Qed.

Lemma not_full_not_over g :
  is_grid g → gridTiles g < SIZE * SIZE → isGameOver g = Some false.
Proof.
  intros Hg Hroom.
  destruct (isGameOver_stuck _ Hg) as [[_ Hstuck]|[Hfalse _]]; [|done].
  apply (stuck_no_empty _ Hg) in Hstuck as [Hne _].
  pose proof (empties_and_tiles _ Hg) as Hcount.
  rewrite (no_empty_filter _ Hne) in Hcount. cbn [length] in Hcount. lia.
Qed.

Lemma fresh_hasWon g :
  is_grid g → Forall (Forall fresh_cell) g → hasWon g = Some false.
Proof.
  intros Hg Hf. apply is_grid_cells in Hg
    as (a0&a1&a2&a3&b0&b1&b2&b3&c0&c1&c2&c3&d0&d1&d2&d3&->).
  destruct (hasWon_cells a0 a1 a2 a3 b0 b1 b2 b3 c0 c1 c2 c3 d0 d1 d2 d3)
    as ([] & Hb & Hiff); [|done].
  destruct (proj1 Hiff eq_refl) as (row & col & Hcell).
  by apply (fresh_cell_not_won _ Hf) in Hcell.
Qed.

(** One call of [addRandomTile] while the board is being set up. *)
Lemma spawn_fresh g uPos uVal g' :
  is_grid g → gridTiles g < SIZE * SIZE → Forall (Forall fresh_cell) g →
  addRandomTile g uPos uVal = Some g' →
  is_grid g' ∧ gridTiles g' = gridTiles g + 1 ∧ Forall (Forall fresh_cell) g'.
Proof.
  intros Hg Hroom Hfresh Hadd.
  pose proof (addRandomTile_spawned _ _ _ _ (proj1 Hg) Hadd) as Hsp.
  pose proof (spawned_is_grid _ _ Hg Hsp) as Hg'.
  destruct (spawned_not_full _ _ Hg Hroom Hsp) as (row & col & rw & v & Hrow & Hcol & Hv & ->).
  split_and!; [done| |].
  - pose proof (gridTiles_insert g row rw (<[col := Some v]> rw) Hrow) as Hcount.
    rewrite (lineTiles_spawn _ _ _ Hcol) in Hcount. lia.
  - apply Forall_insert; [done|]. apply Forall_insert.
    + rewrite Forall_lookup in Hfresh. by apply (Hfresh _ _ Hrow).
    + destruct Hv as [-> | ->]; unfold fresh_cell; auto.
Qed.

Lemma initializeGame_inv draws gs :
  initializeGame draws = Some gs →
  score gs = 0%Z ∧ gameOver gs = false ∧ won gs = false
  ∧ is_grid (grid gs) ∧ gridTiles (grid gs) = 2 ∧ Forall (Forall fresh_cell) (grid gs).
Proof.
  unfold initializeGame. cbn [INITIAL_TILES seq for_each].
  destruct (addRandomTile createEmptyGrid _ _) as [g1|] eqn:H1; [|done].
  cbn [mbind option_bind].
  destruct (addRandomTile g1 _ _) as [g2|] eqn:H2; [|done].
  cbn. intros [= <-]. cbn [grid score gameOver won].
  destruct createEmptyGrid_ok as [Hg0 _].
  assert (Forall (Forall fresh_cell) createEmptyGrid) as Hf0.
  { repeat constructor. }
  destruct (spawn_fresh _ _ _ _ Hg0 ltac:(cbn; lia) Hf0 H1) as (Hg1 & Hn1 & Hf1).
  destruct (spawn_fresh _ _ _ _ Hg1 ltac:(rewrite Hn1; cbn; lia) Hf1 H2)
    as (Hg2 & Hn2 & Hf2).
  split_and!; try done. rewrite Hn2, Hn1. reflexivity.
Qed.

Lemma initializeGame_total draws :
  valid_draw (draws 0).1 → valid_draw (draws 1).1 → ∃ gs, initializeGame draws = Some gs.
Proof.
  intros Hu0 Hu1. unfold initializeGame. cbn [INITIAL_TILES seq for_each].
  destruct createEmptyGrid_ok as [Hg0 Hok0].
  destruct (addRandomTile_total _ (draws 0).1 (draws 0).2 Hg0 Hu0) as [g1 H1].
  rewrite H1. cbn [mbind option_bind].
  destruct (addRandomTile_ok _ _ _ _ Hg0 Hok0 H1) as [Hg1 _].
  destruct (addRandomTile_total _ (draws 1).1 (draws 1).2 Hg1 Hu1) as [g2 H2].
  rewrite H2. by eexists.
Qed.
End win_and_start.

(** X12. On a 4x4 grid [hasWon] returns, and it returns [true] exactly when
    some cell holds the tile 2048. *)
Theorem hasWon_iff (g : Grid) :
  is_grid g →
  ∃ b, hasWon g = Some b
       ∧ (b = true ↔ ∃ row col, cellAt g row col = Some (Some WINNING_TILE)).
Proof.
  intros Hg. apply is_grid_cells in Hg
    as (a0&a1&a2&a3&b0&b1&b2&b3&c0&c1&c2&c3&d0&d1&d2&d3&->).
  apply hasWon_cells.
Qed.

Lemma hasWon_iff_witness :
  ∃ b, hasWon (grid state_won) = Some b
       ∧ (b = true ↔ ∃ row col, cellAt (grid state_won) row col = Some (Some WINNING_TILE)).
Proof.
  apply (hasWon_iff (grid state_won)).
  split; [reflexivity|repeat constructor].
Defined.

(** X13. With valid position draws [initializeGame] returns, and every state
    it returns has score 0, both flags false and a 4x4 grid with exactly two
    tiles, each a 2 or a 4; that grid is neither won nor over. *)
Theorem initializeGame_spec (draws : nat → Q * Q) :
  (valid_draw (draws 0).1 → valid_draw (draws 1).1 →
   ∃ gs, initializeGame draws = Some gs)
  ∧ ∀ gs, initializeGame draws = Some gs →
      score gs = 0%Z ∧ gameOver gs = false ∧ won gs = false
      ∧ is_grid (grid gs) ∧ gridTiles (grid gs) = 2
      ∧ Forall (Forall fresh_cell) (grid gs)
      ∧ hasWon (grid gs) = Some false ∧ isGameOver (grid gs) = Some false.
Proof.
  split; [apply initializeGame_total|].
  intros gs (Hs & Ho & Hw & Hg & Hn & Hf)%initializeGame_inv.
  split_and!; try done.
  - by apply fresh_hasWon.
  - apply not_full_not_over; [done|]. rewrite Hn. cbn. lia.
Qed.

Lemma initializeGame_spec_witness :
  ∃ gs, initializeGame (λ _, (0 # 1, 0 # 1)) = Some gs.
Proof.
  apply (proj1 (initializeGame_spec (λ _, (0 # 1, 0 # 1))));
    split; [discriminate|reflexivity|discriminate|reflexivity].
Defined.

(** ** The turn controller *)

Section turn_controller_more.
Implicit Types (gs : GameState) (g : Grid) (d : Direction).

Lemma moved_frees_cell g d r :
  is_grid g → moveGrid g d = Some r → Move.moved r = true →
  gridTiles (Move.newGrid r) < SIZE * SIZE.
Proof.
  intros Hg Hr Hmv.
  destruct (moveGrid_total g d Hg) as (r' & Hr' & Hgr & Hlines & Hmoved & _).
  simplify_eq. rewrite (gridTiles_lines _ d Hgr), Hlines.
  destruct (lines_shape g d Hg) as [Hn Hlen]. rewrite Hmoved in Hmv.
  pose proof (sum_tiles_changed _ Hlen Hmv) as Hlt. by rewrite Hn in Hlt.
Qed.

Lemma moveGrid_keeps_tile g d r :
  is_grid g → moveGrid g d = Some r → 0 < gridTiles g →
  0 < gridTiles (Move.newGrid r) ≤ gridTiles g.
Proof.
  intros Hg Hr Hpos.
  destruct (moveGrid_total g d Hg) as (r' & Hr' & Hgr & Hlines & _).
  simplify_eq. rewrite (gridTiles_lines _ d Hgr), Hlines.
  rewrite (gridTiles_lines _ d Hg) in *.
  split; [by apply sum_tiles_pos|apply sum_tiles_le].
Qed.

Lemma tiles_ok_positive g : tiles_ok g → Forall positive_tiles g.
Proof. intros H. eapply Forall_impl; [exact H|]. apply tile_ok_positive. Qed.

Lemma moved_score_nonneg g d r :
  is_grid g → tiles_ok g → moveGrid g d = Some r → (0 ≤ Move.scoreGained r)%Z.
Proof.
  intros Hg Hok Hr.
  destruct (moveGrid_total g d Hg) as (r' & Hr' & _ & _ & _ & Hscore).
  simplify_eq. rewrite Hscore.
  apply sum_score_bounds, positive_lines; [done|]. by apply tiles_ok_positive.
Qed.

(** The score of a merge of powers of two is a multiple of 4. *)
Lemma mergeScore_div4 (l : list Z) : Forall is_pow2 l → (4 | mergeScore l)%Z.
Proof.
  induction l as [| x | x y l IH1 IH2] using pair_ind.
  - intros _. by exists 0%Z.
  - intros _. by exists 0%Z.
  - intros H. rewrite mergeScore_step.
    apply Forall_cons in H as [Hx H]. pose proof H as Hyl.
    apply Forall_cons in H as [Hy Hl].
    destruct (x =? y)%Z; [|by apply IH2].
    apply Z.divide_add_r; [|by apply IH1].
    destruct Hx as (k & Hk & ->). exists (2 ^ (k - 1))%Z.
    replace 4%Z with (2 ^ 1 * 2)%Z by done.
    rewrite Z.mul_assoc, <- Z.pow_add_r by lia. do 2 f_equal. lia.
Qed.

Lemma sum_score_div4 (ls : list (list Cell)) :
  Forall (Forall tile_ok) ls → (4 | sumZ (lineScore <$> ls))%Z.
Proof.
  induction 1 as [|line ls Hline _ IH]; cbn; [by exists 0%Z|].
  apply Z.divide_add_r; [|done].
  unfold lineScore. rewrite processLine_unfold. cbn.
  by apply mergeScore_div4, omap_id_pow2.
Qed.

Lemma moved_score_div4 g d r :
  is_grid g → tiles_ok g → moveGrid g d = Some r → (4 | Move.scoreGained r)%Z.
Proof.
  intros Hg Hok Hr.
  destruct (moveGrid_total g d Hg) as (r' & Hr' & _ & _ & _ & Hscore).
  simplify_eq. rewrite Hscore. apply sum_score_div4. by apply tiles_ok_lines.
Qed.

(** What an accepted call of [move] has done: the transform moved, and the
    spawner wrote one tile into an empty cell of the moved grid. *)
Lemma move_accepted gs d uPos uVal gs' :
  is_grid (grid gs) → move gs d uPos uVal = Some gs' →
  gs' = gs
  ∨ ∃ r row col rw v,
      gameOver gs = false
      ∧ moveGrid (grid gs) d = Some r ∧ Move.moved r = true
      ∧ Move.newGrid r !! row = Some rw ∧ rw !! col = Some None
      ∧ (v = 2%Z ∨ v = 4%Z)
      ∧ grid gs' = <[row := <[col := Some v]> rw]> (Move.newGrid r)
      ∧ score gs' = (score gs + Move.scoreGained r)%Z
      ∧ isGameOver (grid gs') = Some (gameOver gs')
      ∧ (if won gs then Some true else hasWon (grid gs')) = Some (won gs').
Proof.
  intros Hg [->|(r & over & w & Hover & Hr & Hmv & Hadd & Hsc & Hio & <- & Hw & <-)]%move_inv;
    [by left|right].
  destruct (moveGrid_total _ d Hg) as (r' & Hr' & Hgr & _). simplify_eq.
  pose proof (addRandomTile_spawned _ _ _ _ (proj1 Hgr) Hadd) as Hsp.
  pose proof (moved_frees_cell _ _ _ Hg Hr Hmv) as Hroom.
  destruct (spawned_not_full _ _ Hgr Hroom Hsp)
    as (row & col & rw & v & Hrow & Hcol & Hv & Hgrid).
  exists r, row, col, rw, v. by split_and!.
Qed.

Lemma gridTiles_has_tile g : is_grid g → 0 < gridTiles g → has_tile g.
Proof.
  intros Hg. apply is_grid_cells in Hg
    as (a0&a1&a2&a3&b0&b1&b2&b3&c0&c1&c2&c3&d0&d1&d2&d3&->).
  unfold has_tile.
  destruct a0 as [v|]; [by exists 0, 0, v|]. destruct a1 as [v|]; [by exists 0, 1, v|].
  destruct a2 as [v|]; [by exists 0, 2, v|]. destruct a3 as [v|]; [by exists 0, 3, v|].
  destruct b0 as [v|]; [by exists 1, 0, v|]. destruct b1 as [v|]; [by exists 1, 1, v|].
  destruct b2 as [v|]; [by exists 1, 2, v|]. destruct b3 as [v|]; [by exists 1, 3, v|].
  destruct c0 as [v|]; [by exists 2, 0, v|]. destruct c1 as [v|]; [by exists 2, 1, v|].
  destruct c2 as [v|]; [by exists 2, 2, v|]. destruct c3 as [v|]; [by exists 2, 3, v|].
  destruct d0 as [v|]; [by exists 3, 0, v|]. destruct d1 as [v|]; [by exists 3, 1, v|].
  destruct d2 as [v|]; [by exists 3, 2, v|]. destruct d3 as [v|]; [by exists 3, 3, v|].
  cbn. lia.
Qed.

(** On a board with a tile, [isGameOver] is [true] exactly when no direction
    moves. *)
Lemma isGameOver_moves g :
  is_grid g → has_tile g →
  isGameOver g = Some true
  ↔ ∀ d, ∃ r, moveGrid g d = Some r ∧ Move.moved r = false.
Proof.
  intros Hg Htile. split.
  - intros Hover d.
    destruct (isGameOver_stuck g Hg) as [[_ Hstuck]|[Hfalse _]]; [|congruence].
    destruct (moveGrid_total g d Hg) as (r & Hr & _ & _ & Hmoved & _).
    exists r. split; [done|]. rewrite Hmoved.
    apply existsb_false_Forall. by apply stuck_lines_unchanged.
  - intros Hmoves.
    destruct (isGameOver_stuck g Hg) as [[Htrue _]|[_ Hnot]]; [done|].
    destruct Hnot. apply unchanged_lines_stuck; [done..|].
    intros d. apply existsb_false_Forall.
    destruct (Hmoves d) as (r & Hr & Hfalse).
    destruct (moveGrid_total g d Hg) as (r' & Hr' & _ & _ & Hmoved & _).
    simplify_eq. by rewrite <- Hmoved.
Qed.

Lemma initializeGame_state_ok draws gs : initializeGame draws = Some gs → state_ok gs.
Proof.
  intros Hinit. pose proof (initializeGame_ok _ _ Hinit) as [_ Hok].
  apply initializeGame_inv in Hinit as (Hs & Ho & Hw & Hg & Hn & Hf).
  unfold state_ok. rewrite Hs, Ho, Hn. split_and!; try done.
  - apply not_full_not_over; [done|]. rewrite Hn. cbn. lia.
  - by rewrite (fresh_hasWon _ Hg Hf).
  - by exists 0%Z.
Qed.

Lemma move_state_ok gs d uPos uVal gs' :
  state_ok gs → move gs d uPos uVal = Some gs' → state_ok gs'.
Proof.
  intros (Hg & Hok & Hn & Hover & Hwon & Hs0 & Hs4) Hmove.
  destruct (move_ok _ _ _ _ _ Hg Hok Hmove) as [Hg' Hok'].
  destruct (move_accepted _ _ _ _ _ Hg Hmove)
    as [->|(r & row & col & rw & v & _ & Hr & Hmv & Hrow & Hcol & Hv & Hgrid & Hsc & Hio & Hw)].
  { unfold state_ok. by split_and!. }
  unfold state_ok. split_and!; try done.
  - pose proof (moveGrid_keeps_tile _ _ _ Hg Hr ltac:(lia)) as Hkeep.
    pose proof (gridTiles_insert _ row rw (<[col := Some v]> rw) Hrow) as Hcount.
    rewrite (lineTiles_spawn _ _ _ Hcol), <- Hgrid in Hcount. lia.
  - intros Hyes. destruct (won gs); congruence.
  - pose proof (moved_score_nonneg _ _ _ Hg Hok Hr). lia.
  - rewrite Hsc. apply Z.divide_add_r; [done|].
    apply (moved_score_div4 _ _ _ Hg Hok Hr).
Qed.

Lemma reachable_state_ok gs : reachable gs → state_ok gs.
Proof.
  induction 1 as [draws gs Hinit|gs d uPos uVal gs' _ IH Hmove|gs draws gs' _ _ Hreset].
  - by eapply initializeGame_state_ok.
  - by eapply move_state_ok.
  - by eapply initializeGame_state_ok.
Qed.
End turn_controller_more.

(** X14. In every reachable state the [gameOver] flag is the value of
    [isGameOver] on the grid of the state, and it is true exactly when
    [moveGrid] reports [moved] false in each of the four directions. *)
Theorem reachable_gameOver (gs : GameState) :
  reachable gs →
  isGameOver (grid gs) = Some (gameOver gs)
  ∧ (gameOver gs = true
     ↔ ∀ d, ∃ r, moveGrid (grid gs) d = Some r ∧ Move.moved r = false).
Proof.
  intros (Hg & _ & Hn & Hover & _)%reachable_state_ok. split; [done|].
  rewrite <- (isGameOver_moves _ Hg) by (apply gridTiles_has_tile; [done|lia]).
  rewrite Hover. split; congruence.
Qed.

Lemma reachable_gameOver_witness :
  isGameOver (grid state_start) = Some (gameOver state_start)
  ∧ (gameOver state_start = true
     ↔ ∀ d, ∃ r, moveGrid (grid state_start) d = Some r ∧ Move.moved r = false).
Proof.
  apply (reachable_gameOver state_start).
  apply (reachable_init (λ _, (0 # 1, 0 # 1))). reflexivity.
Defined.

(** X15. Every reachable board holds at least two tiles: a merge removes one
    tile of two and the spawn that follows adds one. *)
Theorem reachable_tiles (gs : GameState) :
  reachable gs → 2 ≤ gridTiles (grid gs) ≤ SIZE * SIZE.
Proof.
  intros (Hg & _ & Hn & _)%reachable_state_ok. split; [done|].
  pose proof (empties_and_tiles _ Hg). lia.
Qed.

Lemma reachable_tiles_witness : 2 ≤ gridTiles (grid state_start) ≤ SIZE * SIZE.
Proof.
  apply (reachable_tiles state_start).
  apply (reachable_init (λ _, (0 # 1, 0 # 1))). reflexivity.
Defined.

(** X16. In every reachable state whose [won] flag is false no cell of the
    grid holds the tile 2048: the flag is never behind the board. *)
Theorem reachable_won (gs : GameState) :
  reachable gs → won gs = false →
  ∀ row col, cellAt (grid gs) row col ≠ Some (Some WINNING_TILE).
Proof.
  intros (Hg & _ & _ & _ & Hwon & _)%reachable_state_ok Hnot row col Hcell.
  assert (hasWon (grid gs) = Some true) as Hyes; [|apply Hwon in Hyes; congruence].
  apply is_grid_cells in Hg
    as (a0&a1&a2&a3&b0&b1&b2&b3&c0&c1&c2&c3&d0&d1&d2&d3&Hcells).
  rewrite Hcells in *.
  destruct (hasWon_cells a0 a1 a2 a3 b0 b1 b2 b3 c0 c1 c2 c3 d0 d1 d2 d3)
    as (b & -> & Hiff).
  f_equal. apply Hiff. by exists row, col.
Qed.

Lemma reachable_won_witness :
  won state_start = false
  ∧ cellAt (grid state_start) 0 0 ≠ Some (Some WINNING_TILE).
Proof.
  split; [reflexivity|].
  apply (reachable_won state_start); [|reflexivity].
  apply (reachable_init (λ _, (0 # 1, 0 # 1))). reflexivity.
Defined.

(** X17. The score of a reachable state is a non-negative multiple of 4, and
    a call of [move] on a reachable state never lowers it. *)
Theorem reachable_score (gs : GameState) :
  reachable gs →
  (0 ≤ score gs)%Z ∧ (4 | score gs)%Z
  ∧ ∀ d uPos uVal gs', move gs d uPos uVal = Some gs' → (score gs ≤ score gs')%Z.
Proof.
  intros (Hg & Hok & _ & _ & _ & Hs0 & Hs4)%reachable_state_ok. split_and!; [done..|].
  intros d uPos uVal gs' Hmove.
  destruct (move_accepted _ _ _ _ _ Hg Hmove)
    as [->|(r & row & col & rw & v & _ & Hr & _ & _ & _ & _ & _ & Hsc & _)]; [done|].
  pose proof (moved_score_nonneg _ _ _ Hg Hok Hr). lia.
Qed.

Lemma reachable_score_witness :
  (0 ≤ score state_start)%Z ∧ (4 | score state_start)%Z
  ∧ ∀ d uPos uVal gs',
      move state_start d uPos uVal = Some gs' → (score state_start ≤ score gs')%Z.
Proof.
  apply (reachable_score state_start).
  apply (reachable_init (λ _, (0 # 1, 0 # 1))). reflexivity.
Defined.

(** X18. A call of [move] on a state with a 4x4 grid either returns the
    state as it is or spawns exactly one tile: the total of the board grows
    by 2 or by 4, so the grid changes, and the number of tiles grows by one
    at most. *)
Theorem move_board_sum (gs : GameState) (d : Direction) (uPos uVal : Q) (gs' : GameState) :
  is_grid (grid gs) → move gs d uPos uVal = Some gs' →
  gs' = gs
  ∨ ((gridSum (grid gs') = gridSum (grid gs) + 2
      ∨ gridSum (grid gs') = gridSum (grid gs) + 4)%Z
     ∧ gridTiles (grid gs') ≤ gridTiles (grid gs) + 1
     ∧ grid gs' ≠ grid gs).
Proof.
  intros Hg Hmove.
  destruct (move_accepted _ _ _ _ _ Hg Hmove)
    as [->|(r & row & col & rw & v & _ & Hr & _ & Hrow & Hcol & Hv & Hgrid & _)];
    [by left|right].
  pose proof (moveGrid_sum _ _ _ Hg Hr) as Hsum.
  pose proof (gridSum_insert _ row rw (<[col := Some v]> rw) Hrow) as Hins.
  rewrite (lineSum_spawn _ _ _ Hcol), <- Hgrid in Hins.
  assert (gridSum (grid gs') = gridSum (grid gs) + v)%Z as Hv' by lia.
  split_and!.
  - destruct Hv as [-> | ->]; [by left|by right].
  - destruct (moveGrid_total _ d Hg) as (r' & Hr' & Hgr & Hlines & _). simplify_eq.
    pose proof (gridTiles_insert _ row rw (<[col := Some v]> rw) Hrow) as Hcount.
    rewrite (lineTiles_spawn _ _ _ Hcol), <- Hgrid in Hcount.
    pose proof (sum_tiles_le (linesOf (grid gs) d)) as Hle.
    rewrite <- Hlines, <- !gridTiles_lines in Hle by done. lia.
  - intros Heq. rewrite Heq in Hv'. destruct Hv as [-> | ->]; lia.
Qed.

Lemma move_board_sum_witness :
  ∃ gs', move state_start Right (1 # 2) (1 # 2) = Some gs'
         ∧ (gs' = state_start
            ∨ ((gridSum (grid gs') = gridSum (grid state_start) + 2
                ∨ gridSum (grid gs') = gridSum (grid state_start) + 4)%Z
               ∧ gridTiles (grid gs') ≤ gridTiles (grid state_start) + 1
               ∧ grid gs' ≠ grid state_start)).
Proof.
  eexists. split; [reflexivity|].
  apply (move_board_sum state_start Right (1 # 2) (1 # 2)).
  - split; [reflexivity|repeat constructor].
  - reflexivity.
Defined.

(** X19. Once the game is over no sequence of calls of [move] changes the
    state: every call returns it as it is. *)
Theorem play_game_over (gs : GameState) (turns : list (Direction * Q * Q)) :
  gameOver gs = true → play gs turns = Some gs.
Proof.
  intros Hover. induction turns as [|[[d uPos] uVal] turns IH]; [done|].
  cbn [play]. unfold move. rewrite Hover. cbn [mbind option_bind]. exact IH.
Qed.

Lemma play_game_over_witness :
  play state_over [(Left, 1 # 2, 1 # 2); (Up, 0 # 1, 0 # 1)] = Some state_over.
Proof. apply (play_game_over state_over). reflexivity. Defined.

(** X20. Along any sequence of calls of [move] the [won] flag, once true,
    stays true, and so does the [gameOver] flag. *)
Theorem play_flags (gs : GameState) (turns : list (Direction * Q * Q)) (gs' : GameState) :
  play gs turns = Some gs' →
  (won gs = true → won gs' = true) ∧ (gameOver gs = true → gameOver gs' = true).
Proof.
  revert gs. induction turns as [|[[d uPos] uVal] turns IH]; intros gs.
  - cbn. by intros [= <-].
  - cbn [play]. destruct (move gs d uPos uVal) as [gs1|] eqn:Hmove; [|done].
    cbn [mbind option_bind]. intros [IHw IHo]%IH.
    apply move_inv in Hmove
      as [->|(r & over & w & Hfalse & _ & _ & _ & _ & _ & _ & Hw & Hwon)]; [done|].
    split.
    + intros Hyes. apply IHw. rewrite Hyes in Hw. congruence.
    + intros Hyes. congruence.
Qed.

Lemma play_flags_witness :
  ∃ gs', play state_won [(Left, 1 # 2, 1 # 2); (Right, 1 # 2, 1 # 2)] = Some gs'
         ∧ (won state_won = true → won gs' = true)
         ∧ (gameOver state_won = true → gameOver gs' = true).
Proof.
  eexists. split; [reflexivity|].
  apply (play_flags state_won [(Left, 1 # 2, 1 # 2); (Right, 1 # 2, 1 # 2)]).
  reflexivity.
Defined.

(** ** The touch input *)

Section touch_input.
Implicit Types (st : TouchState) (start stop : Q * Q).

(** Case analysis on the absolute values and on the tests of the goal. *)
Ltac swipe_cases :=
  unfold swipeDirection, INPUT_CONFIG.SWIPE_THRESHOLD; cbn [fst snd];
  repeat match goal with
         | |- context [Qlt_le_dec ?x ?y] => destruct (Qlt_le_dec x y)
         end.

Ltac abs_cases :=
  repeat match goal with
         | H : context [Qabs ?x] |- _ => revert H
         end;
  repeat match goal with
         | |- context [Qabs ?x] => pattern (Qabs x); apply Qabs_case; intros ?
         end;
  intros.






Lemma swipe_reverse start stop :
  swipeDirection stop start = opposite <$> swipeDirection start stop.
Proof. swipe_cases; cbn; try done; exfalso; abs_cases; lra. Qed.

Lemma foldl_touchMove st (moves : list (Q * Q)) :
  foldl (λ st pos, handleTouchMove st pos.1 pos.2) st moves
  = mkTouchState (touchStart st) (from_option Some (touchEnd st) (last moves)).
Proof.
  revert st. induction moves as [|pos moves IH]; intros st; cbn [foldl].
  - by destruct st.
  - rewrite IH. cbn [handleTouchMove INPUT_CONFIG.TOUCH_ENABLED negb touchStart touchEnd].
    destruct moves as [|pos' moves]; [by destruct pos|].
    change (last (pos :: pos' :: moves)) with (last (pos' :: moves)).
    destruct (last (pos' :: moves)) eqn:Hlast; [done|].
    by apply last_None in Hlast.
Qed.

(** A gesture that starts with no stale [touchEnd] fires the swipe from its
    start to its last position and leaves no [touchEnd] behind. *)
Lemma runGesture_clean st (gesture : Gesture) :
  touchEnd st = None →
  touchEnd (runGesture st gesture).1 = None
  ∧ (runGesture st gesture).2 = (stop ← last gesture.2; swipeDirection gesture.1 stop).
Proof.
  intros Hclean. destruct gesture as [[x y] moves]. unfold runGesture.
  rewrite foldl_touchMove. cbn. rewrite Hclean.
  destruct (last moves) as [stop|]; cbn; done.
Qed.
End touch_input.


(** X22. The swipe back, from the end position to the start position,
    triggers the opposite move, or none when the swipe triggers none. *)
Theorem swipeDirection_reverse (start stop : Q * Q) :
  swipeDirection stop start = opposite <$> swipeDirection start stop.
Proof.
  destruct (swipeDirection start stop) as [d|] eqn:Hd.
  - rewrite swipe_reverse, Hd. reflexivity.
  - rewrite swipe_reverse, Hd. reflexivity.
Qed.

(** X23. In a sequence of gestures, each a [touchstart], some [touchmove]
    events and a [touchend], every gesture triggers the move of the swipe
    from its own start to its own last position, and a gesture without a
    [touchmove] triggers none: nothing is left over from earlier gestures. *)
Theorem runGestures_spec (st : TouchState) (gestures : list Gesture) :
  touchEnd st = None →
  runGestures st gestures
  = (λ gesture : Gesture, stop ← last gesture.2; swipeDirection gesture.1 stop)
      <$> gestures.
Proof.
  revert st. induction gestures as [|gesture rest IH]; intros st Hclean; [done|].
  cbn [runGestures fmap list_fmap].
  destruct (runGesture_clean st gesture Hclean) as [Hnext Hfired].
  destruct (runGesture st gesture) as [st' fired]. cbn in Hnext, Hfired.
  rewrite Hfired. f_equal. by apply IH.
Qed.

Lemma runGestures_spec_witness :
  runGestures (mkTouchState None None)
    [((0, 0), [(30, 5); (80, 10)]); ((10, 10), []); ((0, 100), [(0, 20)])]%Q
  = (λ gesture : Gesture, stop ← last gesture.2; swipeDirection gesture.1 stop)
      <$> [((0, 0), [(30, 5); (80, 10)]); ((10, 10), []); ((0, 100), [(0, 20)])]%Q.
Proof.
  apply (runGestures_spec (mkTouchState None None)). reflexivity.
Defined.

(** A drag to the right, a tap and a drag upwards. *)
Example three_gestures :
  runGestures (mkTouchState None None)
    [((0, 0), [(30, 5); (80, 10)]); ((10, 10), []); ((0, 100), [(0, 20)])]%Q
  = [Some Right; None; Some Up].
Proof. reflexivity. Qed.

(** ** The tile styles *)

Section tile_styles.
Implicit Types (value : Cell) (k : Z).

Lemma pow2_le k k' : (0 ≤ k ≤ k')%Z → (2 ^ k ≤ 2 ^ k')%Z.
Proof. intros Hk. apply Z.pow_le_mono_r; lia. Qed.

(** A record read at a key beyond its keys is [undefined]. *)
Lemma recordGet_beyond (record : list (Z * string)) (bound key : Z) :
  Forall (λ e, (e.1 ≤ bound)%Z) record → (bound < key)%Z → recordGet record key = None.
Proof.
  induction 1 as [|[key' s] record Hkey _ IH]; intros Hlt; cbn [recordGet]; [done|].
  cbn in Hkey. destruct (Z.eqb_spec key' key); [lia|]. by apply IH.
Qed.

(** The exponents from 1 to 14, one by one. *)
Lemma small_exponent k :
  (1 ≤ k ≤ 14)%Z →
  k ∈ [1; 2; 3; 4; 5; 6; 7; 8; 9; 10; 11; 12; 13; 14]%Z.
Proof.
  intros Hk. assert (k = 1 ∨ k = 2 ∨ k = 3 ∨ k = 4 ∨ k = 5 ∨ k = 6 ∨ k = 7 ∨ k = 8
                     ∨ k = 9 ∨ k = 10 ∨ k = 11 ∨ k = 12 ∨ k = 13 ∨ k = 14)%Z
    as Hcases by lia.
  repeat (destruct Hcases as [->|Hcases]; [by repeat constructor|]).
  subst. by repeat constructor.
Qed.

Lemma getTileColor_configured :
  Forall (λ k : Z,
            let value := (2 ^ k)%Z in
            (if (k <=? 11)%Z then recordGet TILE_COLORS value
             else recordGet SUPER_TILE_COLORS value)
            = Some (getTileColor (Some value))
            ∧ getTileColor (Some value) ≠ RAINBOW_TILE_COLOR
            ∧ getTileColor (Some value) ≠ EMPTY_TILE_COLOR)
         [1; 2; 3; 4; 5; 6; 7; 8; 9; 10; 11; 12; 13; 14]%Z.
Proof. repeat constructor; by vm_compute. Qed.

Lemma getTileColor_beyond k :
  (15 ≤ k)%Z → getTileColor (Some (2 ^ k)%Z) = RAINBOW_TILE_COLOR.
Proof.
  intros Hk. pose proof (pow2_le 15 k ltac:(lia)) as Hbig.
  change (2 ^ 15)%Z with 32768%Z in Hbig.
  unfold getTileColor.
  assert (Forall (λ e : Z * string, (e.1 ≤ 16384)%Z) SUPER_TILE_COLORS) as Hsuper.
  { repeat (constructor; [cbn; lia|]). constructor. }
  assert (Forall (λ e : Z * string, (e.1 ≤ 2048)%Z) TILE_COLORS) as Htiles.
  { repeat (constructor; [cbn; lia|]). constructor. }
  rewrite (recordGet_beyond _ _ _ Hsuper), (recordGet_beyond _ _ _ Htiles) by lia.
  cbn [truthy]. by rewrite andb_false_r.
Qed.
End tile_styles.

(** X24. [getSpecialEffects] returns the pulse class exactly for the tiles of
    value 512 or more, and the empty string for every other cell: its test
    for 2048 singles out no tile. *)
Theorem getSpecialEffects_spec (value : Cell) :
  (getSpecialEffects value = "animate-pulse" ↔ ∃ v, value = Some v ∧ (512 ≤ v)%Z)
  ∧ (getSpecialEffects value = EmptyString ↔ ∀ v, value = Some v → (v < 512)%Z).
Proof.
  destruct value as [v|]; cbn.
  - destruct (Z.eqb_spec v 2048) as [->|_].
    + split; split; try done.
      * intros _. exists 2048%Z. split; [done|lia].
      * intros Hall. specialize (Hall _ eq_refl). lia.
    + destruct (Z.leb_spec 512 v) as [Hbig|Hsmall].
      * split; split; try done.
        -- intros _. by exists v.
        -- intros Hall. specialize (Hall _ eq_refl). lia.
      * split; split; try done.
        -- intros (v' & [= <-] & ?). lia.
        -- intros _ v' [= <-]. done.
  - split; split; try done. by intros (v & ? & _).
Qed.

(** X25. For a tile of value 2 to the power k, with k at least 1,
    [getTileFontSize] returns the small size up to 64, the medium size from
    128 to 512 and the large size from 1024 on. *)
Theorem getTileFontSize_pow2 (k : Z) :
  (1 ≤ k)%Z →
  getTileFontSize (Some (2 ^ k)%Z)
  = if (k <=? 6)%Z then TILE_FONT_SIZES.small
    else if (k <=? 9)%Z then TILE_FONT_SIZES.medium
    else TILE_FONT_SIZES.large.
Proof.
  intros Hk. unfold getTileFontSize.
  destruct (Z.leb_spec k 6); [|destruct (Z.leb_spec k 9)].
  - pose proof (pow2_le k 6 ltac:(lia)) as Hle. change (2 ^ 6)%Z with 64%Z in Hle.
    destruct (Z.ltb_spec (2 ^ k) 100); [done|lia].
  - pose proof (pow2_le 7 k ltac:(lia)) as Hge. change (2 ^ 7)%Z with 128%Z in Hge.
    pose proof (pow2_le k 9 ltac:(lia)) as Hle. change (2 ^ 9)%Z with 512%Z in Hle.
    destruct (Z.ltb_spec (2 ^ k) 100); [lia|].
    destruct (Z.ltb_spec (2 ^ k) 1000); [done|lia].
  - pose proof (pow2_le 10 k ltac:(lia)) as Hge. change (2 ^ 10)%Z with 1024%Z in Hge.
    destruct (Z.ltb_spec (2 ^ k) 100); [lia|].
    destruct (Z.ltb_spec (2 ^ k) 1000); [lia|done].
Qed.

Lemma getTileFontSize_pow2_witness :
  getTileFontSize (Some (2 ^ 7)%Z)
  = if (7 <=? 6)%Z then TILE_FONT_SIZES.small
    else if (7 <=? 9)%Z then TILE_FONT_SIZES.medium
    else TILE_FONT_SIZES.large.
Proof. apply (getTileFontSize_pow2 7). lia. Defined.

(** X26. For a tile of value 2 to the power k, with k at least 1,
    [getTileColor] returns the entry of [TILE_COLORS] up to 2048, the entry
    of [SUPER_TILE_COLORS] from 4096 to 16384, and the rainbow style beyond;
    a configured style is never the rainbow style nor the style of the empty
    cell, and the fourteen configured tiles have fourteen different
    styles. *)
Theorem getTileColor_pow2 (k : Z) :
  (1 ≤ k)%Z →
  let value := (2 ^ k)%Z in
  ((k ≤ 11)%Z → recordGet TILE_COLORS value = Some (getTileColor (Some value)))
  ∧ ((12 ≤ k ≤ 14)%Z →
     recordGet SUPER_TILE_COLORS value = Some (getTileColor (Some value)))
  ∧ ((k ≤ 14)%Z →
     getTileColor (Some value) ≠ RAINBOW_TILE_COLOR
     ∧ getTileColor (Some value) ≠ EMPTY_TILE_COLOR)
  ∧ ((15 ≤ k)%Z → getTileColor (Some value) = RAINBOW_TILE_COLOR)
  ∧ NoDup ((λ j : Z, getTileColor (Some (2 ^ j)%Z))
             <$> [1; 2; 3; 4; 5; 6; 7; 8; 9; 10; 11; 12; 13; 14]%Z).
Proof.
  intros Hk value. subst value.
  pose proof getTileColor_configured as Hall. rewrite Forall_forall in Hall.
  split_and!.
  - intros Hle. destruct (Hall k (small_exponent k ltac:(lia))) as [Hget _].
    by destruct (Z.leb_spec k 11); [|lia].
  - intros Hle. destruct (Hall k (small_exponent k ltac:(lia))) as [Hget _].
    by destruct (Z.leb_spec k 11); [lia|].
  - intros Hle. by destruct (Hall k (small_exponent k ltac:(lia))) as [_ Hne].
  - apply getTileColor_beyond.
  - compute_done.
Qed.

Lemma getTileColor_pow2_witness :
  recordGet SUPER_TILE_COLORS (2 ^ 12)%Z = Some (getTileColor (Some (2 ^ 12)%Z)).
Proof.
  apply (proj1 (proj2 (getTileColor_pow2 12 ltac:(lia)))). lia.
Defined.
